(** * ECharts option manager: a shallow embedding of [OptionManager]

    The development follows the TypeScript module that defines
    [OptionManager] (its [setOption], [mountOption], [getMediaOption]) and
    the helpers [parseRawOption], [applyMediaQuery], [compare],
    [indicesEquals] and [mergeOption].

    Conventions.
    - A JavaScript value is a tree of type [value]; an object is an
      association list in property (insertion) order.
    - Code that can throw returns a [result]; the retained state of the
      manager is passed explicitly.
    - A JavaScript number is an exact rational or one of the three special
      values; the rounding of binary64 arithmetic is not modelled. *)

From Stdlib Require Import List String Ascii Bool ZArith QArith Qround Lia.
From Stdlib Require Import Sorted Permutation DecimalString DecimalPos DecimalZ.
Import ListNotations.

Local Open Scope string_scope.
Local Open Scope list_scope.

Set Warnings "-register-all".

(* ================================================================== *)
(** ** Numbers *)

Module Num.

Inductive number : Type :=
| Fin (q : Q)
| PosInf
| NegInf
| NaN.

Definition of_Z (z : Z) : number := Fin (inject_Z z).

Definition Qsign_pos (q : Q) : bool := Qle_bool 0 q && negb (Qeq_bool q 0).

(** [a / b] of JavaScript on the values above. *)
Definition div (a b : number) : number :=
  match a, b with
  | NaN, _ | _, NaN => NaN
  | Fin x, Fin y =>
      if Qeq_bool y 0
      then if Qeq_bool x 0 then NaN
           else if Qsign_pos x then PosInf else NegInf
      else Fin (x / y)
  | Fin _, (PosInf | NegInf) => Fin 0
  | (PosInf | NegInf), (PosInf | NegInf) => NaN
  | PosInf, Fin y => if Qle_bool 0 y then PosInf else NegInf
  | NegInf, Fin y => if Qle_bool 0 y then NegInf else PosInf
  end.

(** [a <= b]; every comparison with [NaN] is false. *)
Definition le (a b : number) : bool :=
  match a, b with
  | NaN, _ | _, NaN => false
  | NegInf, _ => true
  | _, PosInf => true
  | Fin x, Fin y => Qle_bool x y
  | PosInf, _ => false
  | Fin _, NegInf => false
  end.

Definition ge (a b : number) : bool := le b a.

(** [a === b] on numbers. *)
Definition eq (a b : number) : bool :=
  match a, b with
  | Fin x, Fin y => Qeq_bool x y
  | PosInf, PosInf => true
  | NegInf, NegInf => true
  | _, _ => false
  end.

(** Truthiness of a number: neither zero nor [NaN]. *)
Definition truthy (a : number) : bool :=
  match a with
  | Fin q => negb (Qeq_bool q 0)
  | PosInf | NegInf => true
  | NaN => false
  end.

End Num.

Import Num.

(* ================================================================== *)
(** ** Strings *)

Module Str.

Definition is_upper (c : ascii) : bool :=
  (65 <=? nat_of_ascii c)%nat && (nat_of_ascii c <=? 90)%nat.

Definition lower_char (c : ascii) : ascii :=
  if is_upper c then ascii_of_nat (nat_of_ascii c + 32) else c.

(** [String.prototype.toLowerCase] on the ASCII letters.  The letters
    outside ASCII are left as they are: none of them lowers to a string
    of ASCII letters only, so a property lookup by an ASCII name is not
    affected. *)
Fixpoint toLowerCase (s : string) : string :=
  match s with
  | EmptyString => EmptyString
  | String c r => String (lower_char c) (toLowerCase r)
  end.

(** Line terminators, which [.] of a regular expression refuses: LF, CR
    and, in the UTF-8 bytes of the string, U+2028 and U+2029. *)
Fixpoint has_line_terminator (s : string) : bool :=
  match s with
  | EmptyString => false
  | String c r =>
      let n := nat_of_ascii c in
      if (n =? 10)%nat || (n =? 13)%nat then true
      else
        match r with
        | String c1 (String c2 _) =>
            ((n =? 226)%nat && (nat_of_ascii c1 =? 128)%nat
             && ((nat_of_ascii c2 =? 168)%nat || (nat_of_ascii c2 =? 169)%nat))
            || has_line_terminator r
        | _ => has_line_terminator r
        end
  end.

Definition is_empty (s : string) : bool :=
  match s with EmptyString => true | _ => false end.

(** [strip p s] is the rest of [s] after the prefix [p], if [s] starts
    with [p]. *)
Fixpoint strip (p s : string) : option string :=
  match p, s with
  | EmptyString, _ => Some s
  | String a p', String b s' =>
      if Ascii.eqb a b then strip p' s' else None
  | String _ _, EmptyString => None
  end.

End Str.

(* ================================================================== *)
(** ** The media query evaluator *)

Module Media.

(** A [MediaQuery]: attribute names and their numeric targets, in
    property order. *)
Definition MediaQuery : Type := list (string * number).

(** The groups [matched[1]] and [matched[2]] of
    [attr.match(/^(min|max)?(.+)$/)]; [None] when there is no match.
    The first group is greedy and optional: it is given up when nothing
    would be left for [(.+)]. *)
Definition QUERY_REG (attr : string) : option (option string * string) :=
  if Str.is_empty attr || Str.has_line_terminator attr then None
  else
    match Str.strip "min" attr, Str.strip "max" attr with
    | Some rest, _ =>
        if Str.is_empty rest then Some (None, attr)
        else Some (Some "min", rest)
    | None, Some rest =>
        if Str.is_empty rest then Some (None, attr)
        else Some (Some "max", rest)
    | None, None => Some (None, attr)
    end.

(** [realMap[realAttr]]; [None] is [undefined]. *)
Definition realMap (ecWidth ecHeight : number) (realAttr : string)
  : option number :=
  if String.eqb realAttr "width" then Some ecWidth
  else if String.eqb realAttr "height" then Some ecHeight
  else if String.eqb realAttr "aspectratio" then Some (div ecWidth ecHeight)
  else None.

(** [undefined] converts to [NaN] in a numeric comparison. *)
Definition to_number (real : option number) : number :=
  match real with Some n => n | None => NaN end.

Definition compare (real : option number) (expect : number)
           (operator : string) : bool :=
  if String.eqb operator "min" then ge (to_number real) expect
  else if String.eqb operator "max" then le (to_number real) expect
  else match real with
       | Some r => eq r expect
       | None => false
       end.

(** One round of the callback given to [each]: [applicatable] before the
    constraint, and after it. *)
Definition constraint_step (ecWidth ecHeight : number)
           (applicatable : bool) (c : string * number) : bool :=
  let '(attr, value) := c in
  match QUERY_REG attr with
  | None => applicatable
  | Some (None, _) => applicatable
  | Some (Some operator, rest) =>
      if Str.is_empty rest then applicatable
      else
        let realAttr := Str.toLowerCase rest in
        if compare (realMap ecWidth ecHeight realAttr) value operator
        then applicatable
        else false
  end.

Definition applyMediaQuery (query : MediaQuery) (ecWidth ecHeight : number)
  : bool :=
  fold_left (constraint_step ecWidth ecHeight) query true.

End Media.

(* ================================================================== *)
(** ** Values and errors *)

Inductive value : Type :=
| VUndef
| VNull
| VBool (b : bool)
| VNum (n : number)
| VStr (s : string)
| VArr (items : list value)
| VObj (props : list (string * value)).

(** The own properties of an object, in property order. *)
Definition props : Type := list (string * value).

(** What a call can end with instead of a value.  [TypeError] is the
    exception of the runtime (the module is strict code).  [Untyped] marks
    an input outside the declared TypeScript types whose behaviour the
    model does not follow. *)
Inductive error : Type :=
| TypeError
| Untyped.

Inductive result (A : Type) : Type :=
| Ok (a : A)
| Err (e : error).

Arguments Ok {A} a.
Arguments Err {A} e.

Definition bind {A B : Type} (r : result A) (k : A -> result B) : result B :=
  match r with
  | Ok a => k a
  | Err e => Err e
  end.

Notation "x <- r ;; k" := (bind r (fun x => k))
  (at level 61, r at next level, right associativity).

Module Val.

Definition truthy (v : value) : bool :=
  match v with
  | VUndef | VNull => false
  | VBool b => b
  | VNum n => Num.truthy n
  | VStr s => negb (Str.is_empty s)
  | VArr _ | VObj _ => true
  end.

(** Truthiness of a field that is [undefined] or holds a value. *)
Definition defined (o : option value) : bool :=
  match o with
  | Some v => truthy v
  | None => false
  end.

(** [v == null]. *)
Definition is_nullish (v : value) : bool :=
  match v with
  | VUndef | VNull => true
  | _ => false
  end.

(** [zrUtil.isObject] on the values of the model. *)
Definition isObject (v : value) : bool :=
  match v with
  | VArr _ | VObj _ => true
  | _ => false
  end.

(** [zrUtil.clone]: a deep copy.  Values are immutable trees here, so a
    deep copy of a tree is that tree. *)
Definition clone (v : value) : value := v.

Fixpoint lookup (ps : props) (k : string) : option value :=
  match ps with
  | [] => None
  | (k', v) :: r => if String.eqb k' k then Some v else lookup r k
  end.

(** [obj[k]] on the own properties: [undefined] when absent. *)
Definition get (ps : props) (k : string) : value :=
  match lookup ps k with
  | Some v => v
  | None => VUndef
  end.

Definition has_key (ps : props) (k : string) : bool :=
  match lookup ps k with
  | Some _ => true
  | None => false
  end.

(** [obj[k] = v]: an existing property keeps its place, a new one is
    added last. *)
Fixpoint set (ps : props) (k : string) (v : value) : props :=
  match ps with
  | [] => [(k, v)]
  | (k', v') :: r =>
      if String.eqb k' k then (k', v) :: r else (k', v') :: set r k v
  end.

(** [v.k] for one of the fixed names the manager reads.  Reading from
    [null] or [undefined] throws; arrays and primitives have no such
    property. *)
Definition prop (v : value) (k : string) : result value :=
  match v with
  | VUndef | VNull => Err TypeError
  | VObj ps => Ok (get ps k)
  | _ => Ok VUndef
  end.

(** The same read where the receiver is known to be neither [null] nor
    [undefined]. *)
Definition field (v : value) (k : string) : value :=
  match v with
  | VObj ps => get ps k
  | _ => VUndef
  end.

(** The decimal name of an array index. *)
Definition index_key (i : nat) : string :=
  NilZero.string_of_uint (Nat.to_uint i).

(** The own enumerable properties of an array or an object, as [for in]
    visits them. *)
Definition entries (v : value) : props :=
  match v with
  | VObj ps => ps
  | VArr l => combine (map index_key (seq 0 (List.length l))) l
  | _ => []
  end.

End Val.

Import Val.

(* ================================================================== *)
(** ** Merging two option trees *)

Module Merge.

(** [zrUtil.merge(target, source, overwrite)] of the zrender library,
    which [mergeOption] calls.  When one side is not an object the
    result is a copy of the source (or the target, without [overwrite]).
    Otherwise every own property of the source is visited: two plain
    objects are merged recursively, anything else (scalars, arrays)
    replaces the target's property.  An array as target of a non-array
    object would receive named properties, which a [value] cannot hold:
    that combination is [Untyped]. *)
Fixpoint merge (target source : value) (overwrite : bool) {struct source}
  : result value :=
  let visit :=
    fix visit (sps : props) (tps : props) {struct sps} : result props :=
      match sps with
      | [] => Ok tps
      | (key, sourceProp) :: rest =>
          match sourceProp, get tps key with
          | VObj _, VObj _ =>
              r <- merge (get tps key) sourceProp overwrite ;;
              visit rest (set tps key r)
          | _, _ =>
              if overwrite || negb (has_key tps key)
              then visit rest (set tps key (clone sourceProp))
              else visit rest tps
          end
      end in
  let visit_items :=
    fix visit_items (sl : list value) (done todo : list value)
        {struct sl} : result (list value) :=
      match sl with
      | [] => Ok (done ++ todo)
      | sourceProp :: rest =>
          match todo with
          | targetProp :: todo' =>
              match sourceProp, targetProp with
              | VObj _, VObj _ =>
                  r <- merge targetProp sourceProp overwrite ;;
                  visit_items rest (done ++ [r]) todo'
              | _, _ =>
                  if overwrite
                  then visit_items rest (done ++ [clone sourceProp]) todo'
                  else visit_items rest (done ++ [targetProp]) todo'
              end
          | [] => visit_items rest (done ++ [clone sourceProp]) []
          end
      end in
  match source, target with
  | VObj sps, VObj tps => r <- visit sps tps ;; Ok (VObj r)
  | VArr sl, VArr tl => r <- visit_items sl [] tl ;; Ok (VArr r)
  | VArr sl, VObj tps =>
      (* index names of the array become property names of the object;
         an array element is never a sub-term here, so elements are
         copied or, for two plain objects, merged *)
      r <- (fix visit_idx (sl : list value) (i : nat) (tps : props)
              {struct sl} : result props :=
              match sl with
              | [] => Ok tps
              | sourceProp :: rest =>
                  let key := index_key i in
                  match sourceProp, get tps key with
                  | VObj _, VObj _ =>
                      r <- merge (get tps key) sourceProp overwrite ;;
                      visit_idx rest (S i) (set tps key r)
                  | _, _ =>
                      if overwrite || negb (has_key tps key)
                      then visit_idx rest (S i) (set tps key (clone sourceProp))
                      else visit_idx rest (S i) tps
                  end
              end) sl 0%nat tps ;;
      Ok (VObj r)
  | VObj [], VArr _ => Ok target
  | VObj (_ :: _), VArr _ => Err Untyped
  | _, _ => Ok (if overwrite then clone source else target)
  end.

End Merge.

(* ================================================================== *)
(** ** Reconciling two sequences of component options *)

Module Reconcile.

(** One entry of the mapping result: [item.exist] and [item.option],
    [undefined] when absent. *)
Record MapItem : Type := mkItem { item_exist : value; item_option : value }.

(** Modelled from the spec: [modelUtil.normalizeToArray], which is not
    among the sources.  Both sides are normalized to ordered sequences; a
    bare object counts as a one-element sequence, an absent value as the
    empty one. *)
Definition normalizeToArray (v : value) : list value :=
  match v with
  | VArr l => l
  | VUndef | VNull => []
  | _ => [v]
  end.

Definition item_id (v : value) : value := field v "id".

Definition carries_id (v : value) : bool := negb (is_nullish (item_id v)).

Definition same_id (a b : value) : bool :=
  match a, b with
  | VStr x, VStr y => String.eqb x y
  | VNum x, VNum y => Num.eq x y
  | VBool x, VBool y => Bool.eqb x y
  | _, _ => false
  end.

(** An existing item and, once consumed, the incoming item paired with
    it (with the position of that item in the incoming sequence). *)
Definition slots : Type := list (value * option (nat * value)).

Fixpoint pair_by_id (id : value) (j : nat) (inc : value) (ss : slots)
  : option (slots * option (nat * value)) :=
  match ss with
  | [] => None
  | (e, p) :: r =>
      if carries_id e && same_id (item_id e) id
      then Some ((e, Some (j, inc)) :: r, p)
      else match pair_by_id id j inc r with
           | Some (r', d) => Some ((e, p) :: r', d)
           | None => None
           end
  end.

Fixpoint pair_at (i : nat) (j : nat) (inc : value) (ss : slots)
  : option slots :=
  match ss, i with
  | [], _ => None
  | (e, None) :: r, O => Some ((e, Some (j, inc)) :: r)
  | (_, Some _) :: _, O => None
  | s :: r, S i' =>
      match pair_at i' j inc r with
      | Some r' => Some (s :: r')
      | None => None
      end
  end.

Fixpoint pair_first_free (j : nat) (inc : value) (ss : slots)
  : option slots :=
  match ss with
  | [] => None
  | (e, None) :: r => Some ((e, Some (j, inc)) :: r)
  | s :: r =>
      match pair_first_free j inc r with
      | Some r' => Some (s :: r')
      | None => None
      end
  end.

(** The brand-new items are kept in incoming order. *)
Fixpoint insert_new (n : nat * value) (news : list (nat * value))
  : list (nat * value) :=
  match news with
  | [] => [n]
  | m :: r => if (fst n <? fst m)%nat then n :: m :: r
              else m :: insert_new n r
  end.



Definition is_paired (s : value * option (nat * value)) : bool :=
  match snd s with Some _ => true | None => false end.

Definition is_left_over (s : value * option (nat * value)) : bool :=
  negb (is_paired s).

Definition slot_item (s : value * option (nat * value)) : MapItem :=
  match s with
  | (e, Some (_, inc)) => mkItem e inc
  | (e, None) => mkItem e VUndef
  end.

Definition new_item (n : nat * value) : MapItem := mkItem VUndef (snd n).

Section WithIndexRef.

(** How an incoming item carries an index reference (an explicit
    ordinal pointing at an existing slot), if it does. *)
Variable indexRef : value -> option nat.

Definition reconcile_step (st : slots * list (nat * value))
           (ji : nat * value) : slots * list (nat * value) :=
  let '(ss, news) := st in
  let '(j, inc) := ji in
  match (if carries_id inc then pair_by_id (item_id inc) j inc ss
         else None) with
  | Some (ss', Some d) => (ss', insert_new d news)
  | Some (ss', None) => (ss', news)
  | None =>
      match (match indexRef inc with
             | Some i => pair_at i j inc ss
             | None => None
             end) with
      | Some ss' => (ss', news)
      | None =>
          match pair_first_free j inc ss with
          | Some ss' => (ss', news)
          | None => (ss, insert_new (j, inc) news)
          end
      end
  end.

(** Modelled from the spec: [modelUtil.mappingToExists], which is not
    among the sources.  Each incoming item, in order, is paired with
    the existing item of the same identifier (a later claim on an
    identifier wins, the earlier claimant becomes a new item); else
    with the slot of its index reference when that slot is unconsumed;
    else with the next unconsumed existing item; else it is new.  The
    result lists the paired slots, then the existing items left over,
    then the new items. *)
Definition mappingToExists (existing incoming : list value)
  : list MapItem :=
  let '(ss, news) :=
    fold_left reconcile_step
              (combine (seq 0 (List.length incoming)) incoming)
              (map (fun e => (e, None)) existing, []) in
  map slot_item (filter is_paired ss)
  ++ map slot_item (filter is_left_over ss)
  ++ map new_item news.

End WithIndexRef.







End Reconcile.

(* ================================================================== *)
(** ** Parsing a submitted document *)

Module Parse.

Import Media.

(** An [OptionPreprocessor] works in place on the option object it is
    given: the function gives the properties of that object after the
    call [preProcess(option, isNew)]. *)
Definition OptionPreprocessor : Type := props -> bool -> props.

Record ParsedRawOption : Type := mkParsed {
  baseOption : props;
  timelineOptions : list value;
  mediaDefault : option value;
  mediaList : list value
}.

(** [zrUtil.each] takes the array-like path on an object whose [length]
    is a number. *)
Definition array_like (ps : props) : bool :=
  match get ps "length" with
  | VNum NaN => false
  | VNum _ => true
  | _ => false
  end.

Fixpoint chars (s : string) : list value :=
  match s with
  | EmptyString => []
  | String c r => VStr (String c EmptyString) :: chars r
  end.

(** The values [zrUtil.each(media, ...)] hands to its callback. *)
Definition each_values (v : value) : result (list value) :=
  match v with
  | VArr l => Ok l
  | VObj ps => if array_like ps then Err Untyped else Ok (map snd ps)
  | VStr s => Ok (chars s)
  | _ => Ok []
  end.

(** [(rawOption.options || []).slice()]. *)
Definition slice_options (opts : value) : result (list value) :=
  if truthy opts
  then match opts with
       | VArr l => Ok l
       | VStr _ => Err Untyped
       | _ => Err TypeError
       end
  else Ok [].

(** The callback over [rawOption.media]. *)
Definition media_step (acc : list value * option value)
           (singleMedia : value) : list value * option value :=
  let '(mediaList, mediaDefault) := acc in
  if truthy singleMedia && truthy (field singleMedia "option")
  then
    if truthy (field singleMedia "query")
    then (mediaList ++ [singleMedia], mediaDefault)
    else match mediaDefault with
         | None => (mediaList, Some singleMedia)
         | Some _ => acc
         end
  else acc.

(** [if (!baseOption.timeline) baseOption.timeline = timelineOpt].  A
    primitive has no [timeline], and the assignment to a property of a
    primitive throws in strict code.  An array would receive a named
    property. *)
Definition attach_timeline (baseOption timelineOpt : value) : result props :=
  match baseOption with
  | VObj ps =>
      Ok (if truthy (get ps "timeline") then ps
          else set ps "timeline" timelineOpt)
  | VArr _ => Err Untyped
  | _ => Err TypeError
  end.

Definition preprocess_props (optionPreprocessorFuncs : list OptionPreprocessor)
           (isNew : bool) (option : props) : props :=
  fold_left (fun o preProcess => preProcess o isNew)
            optionPreprocessorFuncs option.

(** The preprocessors on one fragment.  A fragment that is not an object
    (outside [ECUnitOption]) has no content for them to rewrite. *)
Definition preprocess (optionPreprocessorFuncs : list OptionPreprocessor)
           (isNew : bool) (option : value) : value :=
  match option with
  | VObj ps => VObj (preprocess_props optionPreprocessorFuncs isNew ps)
  | _ => option
  end.

(** A media unit after its [option] went through the preprocessors. *)
Definition preprocess_media (funcs : list OptionPreprocessor)
           (isNew : bool) (media : value) : value :=
  match media with
  | VObj ps => VObj (set ps "option" (preprocess funcs isNew (get ps "option")))
  | _ => media
  end.

Definition parseRawOption (rawOption : value)
           (optionPreprocessorFuncs : list OptionPreprocessor)
           (isNew : bool) : result ParsedRawOption :=
  timelineOpt <- prop rawOption "timeline" ;;
  given <- prop rawOption "baseOption" ;;
  let baseOption0 := if truthy given then Some given else None in
  options <- prop rawOption "options" ;;
  timeline_part <-
    (if truthy timelineOpt || truthy options
     then tl <- slice_options options ;;
          Ok (match baseOption0 with
              | Some b => Some b
              | None => Some (VObj [])
              end, tl)
     else Ok (baseOption0, [])) ;;
  let '(baseOption1, timelineOptions) := timeline_part in
  media <- prop rawOption "media" ;;
  media_part <-
    (if truthy media
     then units <- each_values media ;;
          Ok (match baseOption1 with
              | Some b => Some b
              | None => Some (VObj [])
              end, fold_left media_step units ([], None))
     else Ok (baseOption1, ([], None))) ;;
  let '(baseOption2, (mediaList, mediaDefault)) := media_part in
  let baseOption3 :=
    match baseOption2 with
    | Some b => b
    | None => rawOption
    end in
  base <- attach_timeline baseOption3 timelineOpt ;;
  Ok (mkParsed
        (preprocess_props optionPreprocessorFuncs isNew base)
        (map (preprocess optionPreprocessorFuncs isNew) timelineOptions)
        mediaDefault
        (map (preprocess_media optionPreprocessorFuncs isNew) mediaList)).

End Parse.

(* ================================================================== *)
(** ** The option manager *)

Module Manager.

Import Media Merge Reconcile Parse.

Definition number_to_string (z : Z) : string :=
  NilZero.string_of_int (Z.to_int z).

(** [Array.prototype.join]. *)
Fixpoint join (sep : string) (l : list string) : string :=
  match l with
  | [] => EmptyString
  | [x] => x
  | x :: r => x ++ sep ++ join sep r
  end.

(** A string without a comma. *)
Fixpoint comma_free (s : string) : bool :=
  match s with
  | EmptyString => true
  | String c r => negb (Ascii.eqb c ",") && comma_free r
  end.

Definition indicesEquals (indices1 indices2 : list Z) : bool :=
  String.eqb (join "," (map number_to_string indices1))
             (join "," (map number_to_string indices2)).

Record OptionManager : Type := mkManager {
  _timelineOptions : list value;
  _mediaList : list value;
  _mediaDefault : option value;
  _currentMediaIndices : list Z;
  _optionBackup : option ParsedRawOption;
  _newBaseOption : value
}.

(** The manager as its constructor leaves it. *)
Definition initial : OptionManager :=
  mkManager [] [] None [] None VUndef.

Fixpoint mapM {A B : Type} (f : A -> result B) (l : list A)
  : result (list B) :=
  match l with
  | [] => Ok []
  | a :: r => b <- f a ;; bs <- mapM f r ;; Ok (b :: bs)
  end.

Section WithRegistry.

(** [ComponentModel.hasClass]: the registry of component main types. *)
Variable hasClass : string -> bool.
Variable indexRef : value -> option nat.

(** The callback of [map(mapResult, ...)] in [mergeOption]. *)
Definition merge_item (item : MapItem) : result value :=
  if truthy (item_option item) && truthy (item_exist item)
  then merge (item_exist item) (item_option item) true
  else Ok (if truthy (item_exist item) then item_exist item
           else item_option item).

(** The callback of [each(newOption, ...)] in [mergeOption]:
    [oldOption] after one property of the new option. *)
Definition merge_component (oldOption : props) (entry : string * value)
  : result props :=
  let '(mainType, newCptOpt) := entry in
  if is_nullish newCptOpt then Ok oldOption
  else
    let oldCptOpt := get oldOption mainType in
    if negb (hasClass mainType)
    then r <- merge oldCptOpt newCptOpt true ;;
         Ok (set oldOption mainType r)
    else
      let mapResult :=
        mappingToExists indexRef (normalizeToArray oldCptOpt)
                        (normalizeToArray newCptOpt) in
      items <- mapM merge_item mapResult ;;
      Ok (set oldOption mainType (VArr items)).

Fixpoint merge_components (oldOption : props) (entries : props)
  : result props :=
  match entries with
  | [] => Ok oldOption
  | e :: r =>
      o <- merge_component oldOption e ;;
      merge_components o r
  end.

(** [mergeOption(oldOption, newOption)]: the old option after the
    call. *)
Definition mergeOption (oldOption newOption : props) : result props :=
  if array_like newOption then Err Untyped
  else merge_components oldOption newOption.

(** [setOption].  The loop over [rawOption.series] marks typed arrays,
    which a [value] does not contain, and changes nothing here.  The
    new base is recorded before the merge; in the model the merge can
    only end with [Untyped], so no state is lost by returning the
    error alone. *)
Definition setOption (this : OptionManager) (rawOption : value)
           (optionPreprocessorFuncs : list OptionPreprocessor)
  : result OptionManager :=
  let rawOption := clone rawOption in
  let oldOptionBackup := _optionBackup this in
  newParsedOption <-
    parseRawOption rawOption optionPreprocessorFuncs
                   (match oldOptionBackup with
                    | None => true
                    | Some _ => false
                    end) ;;
  match oldOptionBackup with
  | Some old =>
      merged <- mergeOption (baseOption old) (baseOption newParsedOption) ;;
      Ok (mkManager
            (_timelineOptions this) (_mediaList this) (_mediaDefault this)
            (_currentMediaIndices this)
            (Some (mkParsed
                     merged
                     (match timelineOptions newParsedOption with
                      | [] => timelineOptions old
                      | _ :: _ => timelineOptions newParsedOption
                      end)
                     (if defined (mediaDefault newParsedOption)
                      then mediaDefault newParsedOption
                      else mediaDefault old)
                     (match mediaList newParsedOption with
                      | [] => mediaList old
                      | _ :: _ => mediaList newParsedOption
                      end)))
            (VObj (baseOption newParsedOption)))
  | None =>
      Ok (mkManager
            (_timelineOptions this) (_mediaList this) (_mediaDefault this)
            (_currentMediaIndices this)
            (Some newParsedOption)
            (VObj (baseOption newParsedOption)))
  end.

(** [mountOption]: the returned option and the manager after the
    call.  Before any [setOption] the backup is [undefined] and the
    first read throws. *)
Definition mountOption (this : OptionManager) (isRecreate : bool)
  : result (value * OptionManager) :=
  match _optionBackup this with
  | None => Err TypeError
  | Some optionBackup =>
      Ok (clone (if isRecreate then VObj (baseOption optionBackup)
                 else _newBaseOption this),
          mkManager
            (map clone (timelineOptions optionBackup))
            (map clone (mediaList optionBackup))
            (match mediaDefault optionBackup with
             | Some d => Some (clone d)
             | None => None
             end)
            []
            (_optionBackup this)
            (_newBaseOption this))
  end.

End WithRegistry.

(** One constraint of a query: its target is a number by the declared
    type [MediaQuery]; any other target is [Untyped]. *)
Definition typed_constraint (c : string * value) : result (string * number) :=
  match c with
  | (attr, VNum n) => Ok (attr, n)
  | _ => Err Untyped
  end.

(** The pairs [zrUtil.each(query, ...)] hands to the callback of
    [applyMediaQuery].  On a non-empty array or string the attribute is
    an index, a number, and [attr.match] throws. *)
Definition query_of (query : value) : result MediaQuery :=
  match query with
  | VObj ps => if array_like ps then Err Untyped else mapM typed_constraint ps
  | VArr [] => Ok []
  | VArr (_ :: _) => Err TypeError
  | VStr EmptyString => Ok []
  | VStr (String _ _) => Err TypeError
  | _ => Ok []
  end.

(** The loop of [getMediaOption] over [mediaList], from index [i] on. *)
Fixpoint matching (mediaList : list value) (i : Z)
         (ecWidth ecHeight : number) : result (list Z) :=
  match mediaList with
  | [] => Ok []
  | unit :: rest =>
      qv <- prop unit "query" ;;
      query <- query_of qv ;;
      indices <- matching rest (i + 1)%Z ecWidth ecHeight ;;
      Ok (if applyMediaQuery query ecWidth ecHeight then i :: indices
          else indices)
  end.

(** The selection of one evaluation: the matching indices or, when none
    matches and there is a default, [[-1]]. *)
Definition selection (mediaList : list value) (mediaDefault : option value)
           (ecWidth ecHeight : number) : result (list Z) :=
  indices <- matching mediaList 0%Z ecWidth ecHeight ;;
  Ok (match indices with
      | [] => if defined mediaDefault then [(-1)%Z] else indices
      | _ :: _ => indices
      end).

(** The fragment of one selected index. *)
Definition fragment (mediaList : list value) (mediaDefault : option value)
           (index : Z) : value :=
  clone (if (index =? -1)%Z
         then match mediaDefault with
              | Some d => field d "option"
              | None => VUndef
              end
         else field (nth (Z.to_nat index) mediaList VUndef) "option").

(** [getMediaOption]; the width and height of the API are arguments. *)
Definition getMediaOption (this : OptionManager)
           (ecWidth ecHeight : number)
  : result (list value * OptionManager) :=
  let mediaList := _mediaList this in
  let mediaDefault := _mediaDefault this in
  match mediaList, defined mediaDefault with
  | [], false => Ok ([], this)
  | _, _ =>
      indices <- selection mediaList mediaDefault ecWidth ecHeight ;;
      Ok (match indices with
          | [] => []
          | _ :: _ =>
              if negb (indicesEquals indices (_currentMediaIndices this))
              then map (fragment mediaList mediaDefault) indices
              else []
          end,
          mkManager
            (_timelineOptions this) (_mediaList this) (_mediaDefault this)
            indices
            (_optionBackup this) (_newBaseOption this))
  end.

(** [timelineOptions[index]] for a number [index]: the element at that
    position when [index] is a whole number inside the array, and
    [undefined] for every other number. *)
Definition element_at (l : list value) (index : number) : value :=
  match index with
  | Fin q =>
      if Qeq_bool q (inject_Z (Qfloor q)) && (0 <=? Qfloor q)%Z
      then nth (Z.to_nat (Qfloor q)) l VUndef
      else VUndef
  | _ => VUndef
  end.

(** [getTimelineOption].  [timelineModel] is what
    [ecModel.getComponent('timeline')] gives: nothing, or a model, of
    which only [getCurrentIndex()] is used. *)
Definition getTimelineOption (this : OptionManager)
           (timelineModel : option number) : value :=
  match _timelineOptions this with
  | [] => VUndef
  | _ :: _ =>
      match timelineModel with
      | Some currentIndex =>
          clone (element_at (_timelineOptions this) currentIndex)
      | None => VUndef
      end
  end.

End Manager.

(* ================================================================== *)
(** ** Sequences of submissions, and the notions the properties use *)

Module Session.

Import Media Merge Reconcile Parse Manager.

Section WithRegistry.

Variable hasClass : string -> bool.
Variable indexRef : value -> option nat.
Variable funcs : list OptionPreprocessor.

(** [setOption] on every document of a sequence, in order. *)
Fixpoint submit (this : OptionManager) (docs : list value)
  : result OptionManager :=
  match docs with
  | [] => Ok this
  | d :: rest =>
      this' <- setOption hasClass indexRef this d funcs ;;
      submit this' rest
  end.

(** The option [mountOption] returns after the documents were
    submitted to a fresh manager. *)
Definition resolve (docs : list value) (isRecreate : bool) : result value :=
  this <- submit initial docs ;;
  r <- mountOption this isRecreate ;;
  Ok (fst r).

(** The base layer parsed from one document alone. *)
Definition base_of (doc : value) (isNew : bool) : result props :=
  p <- parseRawOption doc funcs isNew ;;
  Ok (baseOption p).

(** The later documents folded, in order, into an accumulated base:
    each base is merged into the result of all earlier ones. *)
Fixpoint fold_bases (acc : props) (docs : list value) : result props :=
  match docs with
  | [] => Ok acc
  | d :: rest =>
      b <- base_of d false ;;
      acc' <- mergeOption hasClass indexRef acc b ;;
      fold_bases acc' rest
  end.

(** The cumulative merge, in submission order, of the base layers of a
    non-empty sequence of documents. *)
Definition cumulative_base (docs : list value) : result props :=
  match docs with
  | [] => Err TypeError
  | d1 :: rest =>
      b1 <- base_of d1 true ;;
      fold_bases b1 rest
  end.

End WithRegistry.

Definition is_scalar (v : value) : bool := negb (isObject v).



(** An option whose properties hold scalars and which [zrUtil.each]
    visits property by property. *)
Definition plain (ps : props) : bool :=
  forallb (fun kv => is_scalar (snd kv)) ps && negb (Parse.array_like ps).

(** A plain option with unique property names in which no property that
    holds something is a component main type. *)
Definition settled (hasClass : string -> bool) (ps : props) : Prop :=
  plain ps = true
  /\ NoDup (map fst ps)
  /\ (forall k v, In (k, v) ps -> is_nullish v = false -> hasClass k = false).

(** A field that is an array, or is absent (or otherwise falsy). *)
Definition array_or_absent (v : value) : bool :=
  match v with
  | VArr _ => true
  | _ => negb (truthy v)
  end.


(** What the callback over [media] keeps of an entry. *)
Definition is_unit (m : value) : bool :=
  truthy m && truthy (field m "option") && truthy (field m "query").

Definition is_default_candidate (m : value) : bool :=
  truthy m && truthy (field m "option") && negb (truthy (field m "query")).



(** An attribute name with one of the two prefixes and something after
    it. *)
Definition prefixed (attr : string) : bool :=
  match QUERY_REG attr with
  | Some (Some _, _) => true
  | _ => false
  end.

Definition known_attribute (realAttr : string) : bool :=
  String.eqb realAttr "width" || String.eqb realAttr "height"
  || String.eqb realAttr "aspectratio".

(** The attribute names of the grammar
    [(min|max)?(width|height|aspectratio)], letters in either case. *)
Definition fits_grammar (attr : string) : bool :=
  match QUERY_REG attr with
  | Some (_, rest) => known_attribute (Str.toLowerCase rest)
  | None => false
  end.

(** A key that does not fit the grammar and has no prefix either. *)
Definition unfit_unprefixed (attr : string) : bool :=
  negb (fits_grammar attr) && negb (prefixed attr).

(** Whether one constraint, taken alone, lets a query match. *)
Definition constraint_holds (ecWidth ecHeight : number)
           (c : string * number) : bool :=
  constraint_step ecWidth ecHeight true c.

(** The properties of an option that hold something: neither [null] nor
    [undefined]. *)
Definition set_entries : props -> props :=
  filter (fun kv : string * value => negb (is_nullish (snd kv))).

End Session.

(* ================================================================== *)
(** ** Sample documents *)

Module Samples.

Definition num (z : Z) : value := VNum (of_Z z).

(** A [media] array with an entry that has a query and no option, two
    entries without query, and one complete conditional unit. *)
Definition sample_media : props :=
  [("media",
    VArr [ VObj [("query", VObj [("minWidth", num 800)])];
           VObj [("option", VObj [("a", num 1)])];
           VObj [("query", VObj [("maxWidth", num 500)]);
                 ("option", VObj [("a", num 2)])];
           VObj [("option", VObj [("a", num 3)])] ])].

Definition no_class (mainType : string) : bool := false.

Definition no_index (item : value) : option nat := None.

Definition or_initial (r : result Manager.OptionManager)
  : Manager.OptionManager :=
  match r with Ok m => m | Err _ => Manager.initial end.

(** Two timeline layers, then a later document with one. *)
Definition two_layers : value :=
  VObj [("options", VArr [VObj [("a", num 1)]; VObj [("a", num 2)]])].

Definition one_layer : value :=
  VObj [("options", VArr [VObj [("b", num 1)]])].

Definition after_two_layers : Manager.OptionManager :=
  or_initial (Manager.setOption no_class no_index Manager.initial
                                two_layers []).

Definition after_one_layer : Manager.OptionManager :=
  or_initial (Manager.setOption no_class no_index after_two_layers
                                one_layer []).

(** Scalar-only documents. *)
Definition doc_a1 : value := VObj [("a", num 1)].

Definition doc_a2 : value := VObj [("a", num 2)].

Definition doc_b2 : value := VObj [("b", num 2)].

Definition after_a1_a2 : Manager.OptionManager :=
  or_initial (Session.submit no_class no_index [] Manager.initial
                             [doc_a1; doc_a2]).

Definition after_a1_b2 : Manager.OptionManager :=
  or_initial (Session.submit no_class no_index [] Manager.initial
                             [doc_a1; doc_b2]).

(** One conditional unit on [minWidth: 800] and a default unit. *)
Definition wide_unit : value :=
  VObj [("query", VObj [("minWidth", num 800)]);
        ("option", VObj [("a", num 1)])].

Definition default_unit : value := VObj [("option", VObj [("a", num 0)])].

Definition responsive : value :=
  VObj [("baseOption", VObj []); ("media", VArr [wide_unit; default_unit])].

Definition mounted : Manager.OptionManager :=
  match Manager.mountOption
          (or_initial (Manager.setOption no_class no_index Manager.initial
                                         responsive []))
          false with
  | Ok r => snd r
  | Err _ => Manager.initial
  end.

Definition viewport (st : Manager.OptionManager) (width : Z)
  : Manager.OptionManager :=
  match Manager.getMediaOption st (of_Z width) (of_Z 600) with
  | Ok r => snd r
  | Err _ => st
  end.

Definition fst_ok {A B : Type} (r : result (A * B)) : option A :=
  match r with Ok x => Some (fst x) | Err _ => None end.

(** A registry in which [series] is a component main type. *)
Definition series_class (mainType : string) : bool :=
  String.eqb mainType "series".

Definition entry (id : string) (v : Z) : value :=
  VObj [("id", VStr id); ("v", num v)].



Definition snd_ok {A : Type} (r : result (A * Manager.OptionManager))
  : Manager.OptionManager :=
  match r with Ok x => snd x | Err _ => Manager.initial end.

(** A preprocessor that marks the option it is given. *)
Definition mark_seen : Parse.OptionPreprocessor :=
  fun ps _ => set ps "seen" (VBool true).



End Samples.

(* ================================================================== *)
(** * Properties *)

Module MediaFacts.

Import Media Session.

Lemma le_NaN_r (a : number) : Num.le a NaN = false.
Proof. destruct a; reflexivity. Qed.

Lemma le_NaN_l (a : number) : Num.le NaN a = false.
Proof. reflexivity. Qed.

(** What the regular expression can give for the first group. *)
Lemma QUERY_REG_operator (attr op rest : string) :
  QUERY_REG attr = Some (Some op, rest) ->
  (op = "min" \/ op = "max") /\ Str.is_empty rest = false.
Proof.
  unfold QUERY_REG.
  destruct (Str.is_empty attr || Str.has_line_terminator attr); [discriminate|].
  destruct (Str.strip "min" attr) as [r1|].
  - destruct (Str.is_empty r1) eqn:E; intros H; inversion H; subst; auto.
  - destruct (Str.strip "max" attr) as [r2|]; [|discriminate].
    destruct (Str.is_empty r2) eqn:E; intros H; inversion H; subst; auto.
Qed.

(** A constraint whose attribute has no prefix leaves the flag alone. *)
Lemma unprefixed_step (w h : number) (b : bool) (attr : string) (v : number) :
  prefixed attr = false -> constraint_step w h b (attr, v) = b.
Proof.
  unfold prefixed, constraint_step.
  destruct (QUERY_REG attr) as [[[op|] rest]|]; try reflexivity.
  discriminate.
Qed.

(** A prefixed constraint on an unknown attribute clears the flag. *)
Lemma unknown_step (w h : number) (b : bool) (attr : string) (v : number) :
  prefixed attr = true -> fits_grammar attr = false ->
  constraint_step w h b (attr, v) = false.
Proof.
  unfold prefixed, fits_grammar, constraint_step.
  destruct (QUERY_REG attr) as [[[op|] rest]|] eqn:E; try discriminate.
  intros _ K.
  destruct (QUERY_REG_operator _ _ _ E) as [Hop Hne].
  rewrite Hne.
  assert (R : realMap w h (Str.toLowerCase rest) = None).
  { unfold known_attribute in K. unfold realMap.
    destruct (String.eqb (Str.toLowerCase rest) "width"); [discriminate|].
    destruct (String.eqb (Str.toLowerCase rest) "height"); [discriminate|].
    destruct (String.eqb (Str.toLowerCase rest) "aspectratio"); [discriminate|].
    reflexivity. }
  rewrite R.
  destruct Hop as [-> | ->]; unfold compare; simpl;
    unfold Num.ge; rewrite ?le_NaN_r, ?le_NaN_l; reflexivity.
Qed.

Lemma step_false (w h : number) (c : string * number) :
  constraint_step w h false c = false.
Proof.
  destruct c as [attr v]. unfold constraint_step.
  destruct (QUERY_REG attr) as [[[op|] rest]|]; try reflexivity.
  destruct (Str.is_empty rest); [reflexivity|].
  destruct (compare _ _ _); reflexivity.
Qed.

Lemma fold_false (w h : number) (q : MediaQuery) :
  fold_left (constraint_step w h) q false = false.
Proof.
  induction q as [|c q IH]; cbn [fold_left]; [reflexivity|].
  rewrite step_false. exact IH.
Qed.

Lemma fold_blocked (w h : number) (q : MediaQuery) (b : bool)
      (attr : string) (v : number) :
  In (attr, v) q -> prefixed attr = true -> fits_grammar attr = false ->
  fold_left (constraint_step w h) q b = false.
Proof.
  revert b. induction q as [|c q IH]; intros b Hin P F; [destruct Hin|].
  cbn [fold_left]. destruct Hin as [-> | Hin].
  - rewrite (unknown_step w h b attr v P F). apply fold_false.
  - apply IH; assumption.
Qed.

(** C3 (the code at the failing input).  The query [{height: 600}] has a
    single constraint without prefix.  The callback returns before the
    comparison, so the query matches at height 599 and at height 601 as
    it does at 600, at every width; the equality branch of [compare],
    which tells 599 and 601 from 600, is never reached. *)
Theorem exact_constraint_is_skipped (w : number) :
  applyMediaQuery [("height", of_Z 600)] w (of_Z 599) = true
  /\ applyMediaQuery [("height", of_Z 600)] w (of_Z 601) = true
  /\ applyMediaQuery [("height", of_Z 600)] w (of_Z 600) = true
  /\ compare (Some (of_Z 599)) (of_Z 600) EmptyString = false
  /\ compare (Some (of_Z 601)) (of_Z 600) EmptyString = false
  /\ compare (Some (of_Z 600)) (of_Z 600) EmptyString = true.
Proof. repeat split; reflexivity. Qed.

(** C4, as stated, fails: the key [minFoo] does not fit the grammar, and
    the query made of it alone matches no viewport. *)
Lemma minFoo_blocks :
  fits_grammar "minFoo" = false
  /\ applyMediaQuery [("minFoo", of_Z 5)] (of_Z 800) (of_Z 600) = false.
Proof. split; reflexivity. Qed.

Lemma fold_drop (keep : string * number -> bool) (w h : number)
      (q : MediaQuery) (b : bool) :
  (forall c, keep c = false -> prefixed (fst c) = false) ->
  fold_left (constraint_step w h) q b =
  fold_left (constraint_step w h) (filter keep q) b.
Proof.
  intros K. revert b.
  induction q as [|[attr v] q IH]; intros b; [reflexivity|].
  cbn [fold_left filter].
  destruct (keep (attr, v)) eqn:P; cbn [fold_left].
  - apply IH.
  - rewrite (unprefixed_step w h b attr v (K _ P)). apply IH.
Qed.

(** C4, amended.  Of the keys that do not fit the grammar, those without
    a [min]/[max] prefix are ignored: the query is evaluated as if those
    constraints were not there.  A key that does not fit and has a prefix
    (so that an unknown name follows the prefix) is not ignored: a query
    that holds one matches no viewport.  Nothing is said here of the keys
    that fit the grammar. *)
Theorem unfit_attribute (query : MediaQuery) (w h : number) :
  applyMediaQuery query w h =
  applyMediaQuery (filter (fun c => negb (unfit_unprefixed (fst c))) query) w h
  /\ (forall attr v,
         In (attr, v) query ->
         fits_grammar attr = false -> prefixed attr = true ->
         applyMediaQuery query w h = false).
Proof.
  split.
  - apply fold_drop. intros c K. unfold unfit_unprefixed in K.
    apply negb_false_iff in K. apply andb_prop in K. destruct K as [_ K].
    apply negb_true_iff in K. exact K.
  - intros attr v Hin F P. exact (fold_blocked w h query true attr v Hin P F).
Qed.

Lemma unfit_attribute_witness :
  applyMediaQuery [("foo", of_Z 1); ("maxBar", of_Z 2)] (of_Z 800) (of_Z 600)
  = false.
Proof.
  apply (proj2 (unfit_attribute [("foo", of_Z 1); ("maxBar", of_Z 2)]
                                (of_Z 800) (of_Z 600)) "maxBar" (of_Z 2)).
  - simpl. right. left. reflexivity.
  - reflexivity.
  - reflexivity.
Defined.

End MediaFacts.

Module ParseFacts.

Import Media Merge Reconcile Parse Manager Session Samples.

Lemma bind_ok {A B : Type} (r : result A) (k : A -> result B) (b : B) :
  bind r k = Ok b -> exists a, r = Ok a /\ k a = Ok b.
Proof. destruct r as [a|e]; simpl; [eauto | discriminate]. Qed.

(** The callback over [media], run over a whole list of entries. *)
Lemma media_fold (units l : list value) (d : option value) :
  fold_left media_step units (l, d) =
  (l ++ filter is_unit units,
   match d with
   | Some _ => d
   | None => hd_error (filter is_default_candidate units)
   end).
Proof.
  revert l d. induction units as [|m units IH]; intros l d.
  - simpl. rewrite app_nil_r. destruct d; reflexivity.
  - cbn [fold_left filter]. unfold media_step at 2.
    unfold is_unit, is_default_candidate.
    destruct (truthy m && truthy (field m "option")) eqn:E1;
      cbn [andb negb].
    + destruct (truthy (field m "query")) eqn:E2; cbn [andb negb].
      * rewrite IH. rewrite <- app_assoc. reflexivity.
      * destruct d as [d|]; rewrite IH; reflexivity.
    + rewrite IH. reflexivity.
Qed.

(** Only an object parses: every other root ends with an error. *)
Lemma parse_ok_object (raw : value) funcs isNew p :
  parseRawOption raw funcs isNew = Ok p -> exists ps, raw = VObj ps.
Proof.
  destruct raw; try discriminate; eauto.
Qed.


(** The stages of a successful parse of an object. *)
Lemma parse_inv (ps : props) funcs isNew p :
  parseRawOption (VObj ps) funcs isNew = Ok p ->
  exists b1 tl b2 ml md base,
    (if truthy (get ps "timeline") || truthy (get ps "options")
     then x <- slice_options (get ps "options") ;;
          Ok (match (if truthy (get ps "baseOption")
                     then Some (get ps "baseOption") else None) with
              | Some b => Some b
              | None => Some (VObj [])
              end, x)
     else Ok (if truthy (get ps "baseOption")
              then Some (get ps "baseOption") else None, [])) = Ok (b1, tl)
    /\ (if truthy (get ps "media")
        then units <- each_values (get ps "media") ;;
             Ok (match b1 with
                 | Some b => Some b
                 | None => Some (VObj [])
                 end, fold_left media_step units ([], None))
        else Ok (b1, ([], None))) = Ok (b2, (ml, md))
    /\ attach_timeline (match b2 with Some b => b | None => VObj ps end)
                       (get ps "timeline") = Ok base
    /\ p = mkParsed (preprocess_props funcs isNew base)
                    (map (preprocess funcs isNew) tl)
                    md
                    (map (preprocess_media funcs isNew) ml).
Proof.
  unfold parseRawOption. cbn [prop bind]. intros H.
  apply bind_ok in H. destruct H as [[b1 tl] [H1 H]].
  apply bind_ok in H. destruct H as [[b2 [ml md]] [H2 H]].
  apply bind_ok in H. destruct H as [base [H3 H]].
  inversion H. subst p.
  exists b1, tl, b2, ml, md, base. repeat split; assumption.
Qed.

(** The timeline layers of a parsed document are the entries of its
    [options] array, preprocessed; there are none without that array. *)
Lemma parse_timeline (ps : props) funcs isNew p :
  parseRawOption (VObj ps) funcs isNew = Ok p ->
  timelineOptions p =
  map (preprocess funcs isNew)
      (match get ps "options" with VArr l => l | _ => [] end).
Proof.
  intros H. apply parse_inv in H.
  destruct H as (b1 & tl & b2 & ml & md & base & H1 & _ & _ & ->).
  cbn [timelineOptions]. f_equal.
  destruct (truthy (get ps "timeline") || truthy (get ps "options")) eqn:T.
  - apply bind_ok in H1. destruct H1 as [x [S H1]].
    inversion H1; subst. unfold slice_options in S.
    destruct (get ps "options") as [ | |b|n|s|l|o];
      cbn [truthy] in S;
      try (destruct (truthy _) in S); try (destruct (Num.truthy _) in S);
      try (destruct (negb _) in S); try destruct b;
      try discriminate; inversion S; reflexivity.
  - apply orb_false_elim in T. destruct T as [_ T].
    inversion H1; subst.
    destruct (get ps "options"); try reflexivity. discriminate.
Qed.

(** C10.  Of the entries of a [media] array, parsing keeps those with
    an [option] and a [query] as the media list, in their order, and the
    first one with an [option] and no [query] as the default.  An entry
    without [option] is in neither class, with or without a query. *)
Theorem media_entries_kept (ps : props) (units : list value)
        funcs isNew p :
  get ps "media" = VArr units ->
  parseRawOption (VObj ps) funcs isNew = Ok p ->
  mediaList p = map (preprocess_media funcs isNew) (filter is_unit units)
  /\ mediaDefault p = hd_error (filter is_default_candidate units)
  /\ (forall m, truthy (field m "option") = false ->
                is_unit m = false /\ is_default_candidate m = false).
Proof.
  intros M H. apply parse_inv in H.
  destruct H as (b1 & tl & b2 & ml & md & base & _ & H2 & _ & ->).
  rewrite M in H2. cbn [truthy each_values bind] in H2.
  rewrite media_fold in H2. inversion H2; subst.
  cbn [mediaList mediaDefault app]. repeat split.
  - unfold is_unit. rewrite H. rewrite andb_false_r. reflexivity.
  - unfold is_default_candidate. rewrite H. rewrite andb_false_r. reflexivity.
Qed.

Lemma media_entries_kept_witness :
  exists p,
    parseRawOption (VObj sample_media) [] true = Ok p
    /\ mediaList p =
       [VObj [("query", VObj [("maxWidth", num 500)]);
              ("option", VObj [("a", num 2)])]]
    /\ mediaDefault p = Some (VObj [("option", VObj [("a", num 1)])]).
Proof.
  eexists. split; [reflexivity|].
  destruct (media_entries_kept sample_media _ [] true _ eq_refl eq_refl)
    as (L & D & _).
  split; [exact L | exact D].
Defined.

End ParseFacts.

Module IndicesFacts.

Import Manager.

Lemma to_int_not_nil (z : Z) :
  Z.to_int z <> Decimal.Pos Decimal.Nil /\ Z.to_int z <> Decimal.Neg Decimal.Nil.
Proof.
  destruct z as [|p|p]; cbn; split; try discriminate;
    intros H; inversion H as [K]; exact (Unsigned.to_uint_nonnil p K).
Qed.

Lemma number_to_string_inj (a b : Z) :
  number_to_string a = number_to_string b -> a = b.
Proof.
  unfold number_to_string. intros H.
  apply DecimalZ.to_int_inj.
  destruct (to_int_not_nil a) as [A1 A2].
  destruct (to_int_not_nil b) as [B1 B2].
  pose proof (NilZero.isi _ A1 A2) as Ia.
  pose proof (NilZero.isi _ B1 B2) as Ib.
  rewrite H in Ia. rewrite Ia in Ib. inversion Ib. reflexivity.
Qed.

Lemma uint_comma_free (d : Decimal.uint) :
  comma_free (NilEmpty.string_of_uint d) = true.
Proof. induction d; cbn; auto. Qed.

Lemma number_to_string_comma_free (z : Z) :
  comma_free (number_to_string z) = true.
Proof.
  unfold number_to_string, NilZero.string_of_int, NilZero.string_of_uint.
  destruct (Z.to_int z) as [d|d]; destruct d; cbn;
    try reflexivity; apply uint_comma_free.
Qed.

Lemma number_to_string_nonempty (z : Z) :
  number_to_string z <> EmptyString.
Proof.
  unfold number_to_string, NilZero.string_of_int, NilZero.string_of_uint.
  destruct (Z.to_int z) as [d|d]; destruct d; cbn; discriminate.
Qed.

Lemma comma_free_app_comma (x r : string) :
  comma_free (x ++ String "," r) = false.
Proof.
  induction x as [|c x IH]; cbn; [reflexivity|].
  rewrite IH. apply andb_false_r.
Qed.

Lemma split_comma : forall x y r1 r2 : string,
  comma_free x = true -> comma_free y = true ->
  (x ++ String "," r1 = y ++ String "," r2)%string ->
  x = y /\ r1 = r2.
Proof.
  induction x as [|a x IH]; intros y r1 r2 Fx Fy E.
  - destruct y as [|b y]; cbn in E.
    + inversion E. auto.
    + inversion E; subst. cbn in Fy. discriminate.
  - destruct y as [|b y]; cbn in E.
    + inversion E; subst. cbn in Fx. discriminate.
    + inversion E; subst.
      cbn in Fx, Fy. apply andb_prop in Fx. apply andb_prop in Fy.
      destruct (IH y r1 r2 (proj2 Fx) (proj2 Fy) H1) as [-> ->]. auto.
Qed.

Lemma join_cons2 (x y : string) (r : list string) :
  join "," (x :: y :: r) = (x ++ String "," (join "," (y :: r)))%string.
Proof. reflexivity. Qed.

Lemma join_inj : forall l1 l2 : list string,
  Forall (fun s => comma_free s = true /\ s <> EmptyString) l1 ->
  Forall (fun s => comma_free s = true /\ s <> EmptyString) l2 ->
  join "," l1 = join "," l2 -> l1 = l2.
Proof.
  induction l1 as [|x r1 IH]; intros l2 F1 F2 E.
  - destruct l2 as [|y r2]; [reflexivity|].
    inversion F2 as [|? ? [Cy Ny] _]; subst.
    destruct r2 as [|z r2].
    + cbn in E. symmetry in E. contradiction.
    + rewrite join_cons2 in E. cbn [join] in E.
      destruct y; [contradiction | discriminate].
  - inversion F1 as [|? ? [Cx Nx] F1']; subst.
    destruct l2 as [|y r2].
    + destruct r1 as [|z r1].
      * cbn in E. contradiction.
      * rewrite join_cons2 in E. cbn [join] in E.
        destruct x; [contradiction | discriminate].
    + inversion F2 as [|? ? [Cy Ny] F2']; subst.
      destruct r1 as [|z r1]; destruct r2 as [|z' r2].
      * cbn in E. subst. reflexivity.
      * rewrite join_cons2 in E. change (join "," [x]) with x in E.
        rewrite E in Cx. rewrite comma_free_app_comma in Cx. discriminate.
      * rewrite join_cons2 in E. change (join "," [y]) with y in E.
        rewrite <- E in Cy. rewrite comma_free_app_comma in Cy. discriminate.
      * rewrite !join_cons2 in E.
        destruct (split_comma _ _ _ _ Cx Cy E) as [-> E'].
        f_equal. apply IH; assumption.
Qed.

(** [indicesEquals] compares the joined strings; on numbers this is
    equality of the two lists. *)
Lemma indicesEquals_iff (a b : list Z) :
  indicesEquals a b = true <-> a = b.
Proof.
  unfold indicesEquals. rewrite String.eqb_eq. split.
  - intros E. apply join_inj in E.
    + revert b E. induction a as [|x a IH]; intros [|y b] E;
        try discriminate; [reflexivity|].
      cbn [map] in E. inversion E as [[E1 E2]].
      apply number_to_string_inj in E1. subst. f_equal. apply IH, E2.
    + apply Forall_forall. intros s Hin. apply in_map_iff in Hin.
      destruct Hin as [z [<- _]]. split.
      * apply number_to_string_comma_free.
      * apply number_to_string_nonempty.
    + apply Forall_forall. intros s Hin. apply in_map_iff in Hin.
      destruct Hin as [z [<- _]]. split.
      * apply number_to_string_comma_free.
      * apply number_to_string_nonempty.
  - intros ->. reflexivity.
Qed.

End IndicesFacts.

Module ReconcileFacts.

Import Merge Reconcile.

Section Invariant.

(** A property of option items that the absent item has. *)
Variable P : value -> Prop.
Hypothesis P_undef : P VUndef.





Variable indexRef : value -> option nat.




End Invariant.
































End ReconcileFacts.

Module ManagerFacts.

Import Media Merge Reconcile Parse Manager Session Samples ParseFacts.

Section WithRegistry.

Variable hasClass : string -> bool.
Variable indexRef : value -> option nat.

(** What a successful [setOption] did. *)
Lemma setOption_inv this doc funcs this' :
  setOption hasClass indexRef this doc funcs = Ok this' ->
  exists p,
    parseRawOption doc funcs
                   (match _optionBackup this with
                    | None => true
                    | Some _ => false
                    end) = Ok p
    /\ _newBaseOption this' = VObj (baseOption p)
    /\ match _optionBackup this with
       | None => _optionBackup this' = Some p
       | Some old =>
           exists merged,
             mergeOption hasClass indexRef (baseOption old)
                         (baseOption p) = Ok merged
             /\ _optionBackup this' =
                Some (mkParsed
                        merged
                        (match timelineOptions p with
                         | [] => timelineOptions old
                         | _ :: _ => timelineOptions p
                         end)
                        (if defined (mediaDefault p)
                         then mediaDefault p else mediaDefault old)
                        (match mediaList p with
                         | [] => mediaList old
                         | _ :: _ => mediaList p
                         end))
       end.
Proof.
  unfold setOption, clone. intros H.
  apply bind_ok in H. destruct H as [p [P H]].
  exists p. split; [exact P|].
  destruct (_optionBackup this) as [old|].
  - apply bind_ok in H. destruct H as [merged [M H]].
    inversion H; subst. cbn. split; [reflexivity|].
    exists merged. split; [exact M | reflexivity].
  - inversion H; subst. cbn. split; reflexivity.
Qed.

(** A default found by the parser is an object with an [option]. *)
Lemma parsed_default_defined doc funcs isNew p :
  parseRawOption doc funcs isNew = Ok p ->
  mediaDefault p <> None -> defined (mediaDefault p) = true.
Proof.
  intros H. destruct (parse_ok_object _ _ _ _ H) as [ps ->].
  apply parse_inv in H.
  destruct H as (b1 & tl & b2 & ml & md & base & _ & H2 & _ & ->).
  cbn [mediaDefault]. intros N.
  destruct (truthy (get ps "media")).
  - apply bind_ok in H2. destruct H2 as [units [_ H2]].
    rewrite media_fold in H2. inversion H2; subst.
    destruct (hd_error (filter is_default_candidate units)) as [d|] eqn:E;
      [|contradiction].
    assert (I : In d (filter is_default_candidate units)).
    { destruct (filter is_default_candidate units); inversion E.
      left. reflexivity. }
    apply filter_In in I. destruct I as [_ I].
    unfold is_default_candidate in I.
    apply andb_prop in I. destruct I as [I _].
    apply andb_prop in I. destruct I as [I _]. exact I.
  - inversion H2; subst. contradiction.
Qed.

(** C7.  On a submission after the first, each of the three retained
    parts is replaced on its own, and only by a non-empty part of the
    new document: the timeline layers by a non-empty sequence (the
    entries of the [options] array), the media list by a non-empty
    list, the default by a default that is present.  A part the new
    document does not supply stays as it was. *)
Theorem later_submission_replaces this old doc funcs this' :
  _optionBackup this = Some old ->
  setOption hasClass indexRef this doc funcs = Ok this' ->
  exists ps p new,
    doc = VObj ps
    /\ parseRawOption doc funcs false = Ok p
    /\ _optionBackup this' = Some new
    /\ timelineOptions p =
       map (preprocess funcs false)
           (match get ps "options" with VArr l => l | _ => [] end)
    /\ (timelineOptions p <> [] -> timelineOptions new = timelineOptions p)
    /\ (timelineOptions p = [] -> timelineOptions new = timelineOptions old)
    /\ (mediaList p <> [] -> mediaList new = mediaList p)
    /\ (mediaList p = [] -> mediaList new = mediaList old)
    /\ (mediaDefault p <> None -> mediaDefault new = mediaDefault p)
    /\ (mediaDefault p = None -> mediaDefault new = mediaDefault old).
Proof.
  intros B H. apply setOption_inv in H. rewrite B in H.
  destruct H as (p & P & _ & merged & _ & N).
  destruct (parse_ok_object _ _ _ _ P) as [ps ->].
  exists ps, p. eexists. split; [reflexivity|].
  split; [exact P|]. split; [exact N|].
  split; [exact (parse_timeline _ _ _ _ P)|].
  cbn [timelineOptions mediaList mediaDefault].
  repeat split.
  - destruct (timelineOptions p); [contradiction | reflexivity].
  - intros ->. reflexivity.
  - destruct (mediaList p); [contradiction | reflexivity].
  - intros ->. reflexivity.
  - intros D. rewrite (parsed_default_defined _ _ _ _ P D). reflexivity.
  - intros ->. reflexivity.
Qed.

Lemma slice_array_or_absent (v : value) :
  array_or_absent v = true -> exists l, slice_options v = Ok l.
Proof.
  unfold array_or_absent, slice_options.
  destruct v; cbn; intros H; try discriminate;
    try (apply negb_true_iff in H; rewrite H); eexists; reflexivity.
Qed.

Lemma each_array_or_absent (v : value) :
  array_or_absent v = true -> truthy v = true ->
  exists l, each_values v = Ok l.
Proof.
  unfold array_or_absent.
  destruct v; cbn; intros H T; try discriminate;
    try (eexists; reflexivity);
    apply negb_true_iff in H; congruence.
Qed.


Variable funcs : list OptionPreprocessor.

Lemma setOption_backup this doc this' :
  setOption hasClass indexRef this doc funcs = Ok this' ->
  exists new, _optionBackup this' = Some new.
Proof.
  intros H. apply setOption_inv in H. destruct H as (p & _ & _ & H).
  destruct (_optionBackup this).
  - destruct H as (m & _ & H). eauto.
  - eauto.
Qed.

(** Every later submission folds its base into the base of the
    backup. *)
Lemma submit_folds docs : forall this old st,
  _optionBackup this = Some old ->
  submit hasClass indexRef funcs this docs = Ok st ->
  exists b new,
    fold_bases hasClass indexRef funcs (baseOption old) docs = Ok b
    /\ _optionBackup st = Some new
    /\ baseOption new = b.
Proof.
  induction docs as [|d rest IH]; intros this old st B H.
  - inversion H; subst. exists (baseOption old), old. auto.
  - cbn [submit] in H. apply bind_ok in H. destruct H as [this1 [S H]].
    apply setOption_inv in S. rewrite B in S.
    destruct S as (p & P & _ & merged & M & N).
    destruct (IH _ _ _ N H) as (b & new & F & B' & E).
    exists b, new. cbn [fold_bases]. unfold base_of at 1.
    rewrite P. cbn [bind]. rewrite M. cbn [bind baseOption] in *.
    auto.
Qed.

Lemma submit_app docs1 docs2 : forall this st,
  submit hasClass indexRef funcs this (docs1 ++ docs2) = Ok st ->
  exists mid,
    submit hasClass indexRef funcs this docs1 = Ok mid
    /\ submit hasClass indexRef funcs mid docs2 = Ok st.
Proof.
  induction docs1 as [|d rest IH]; intros this st H.
  - exists this. auto.
  - cbn [app submit] in H. apply bind_ok in H. destruct H as [t [S H]].
    destruct (IH _ _ H) as (mid & A & B).
    exists mid. cbn [submit]. rewrite S. auto.
Qed.

Lemma submit_keeps_backup docs : forall this old st,
  _optionBackup this = Some old ->
  submit hasClass indexRef funcs this docs = Ok st ->
  exists new, _optionBackup st = Some new.
Proof.
  intros this old st B H.
  destruct (submit_folds docs this old st B H) as (b & new & _ & N & _).
  eauto.
Qed.

(** C1, amended.  In recreate mode [mountOption] returns the base of
    the backup, and that base is the cumulative merge: the base of the
    first document with the base of every later document merged into
    it, in submission order. *)
Theorem recreate_returns_cumulative docs st :
  docs <> [] ->
  submit hasClass indexRef funcs initial docs = Ok st ->
  exists b st',
    cumulative_base hasClass indexRef funcs docs = Ok b
    /\ mountOption st true = Ok (VObj b, st').
Proof.
  destruct docs as [|d1 rest]; [contradiction|]. intros _ H.
  cbn [submit] in H. apply bind_ok in H. destruct H as [this1 [S H]].
  apply setOption_inv in S. cbn [initial _optionBackup] in S.
  destruct S as (p & P & _ & N).
  destruct (submit_folds _ _ _ _ N H) as (b & new & F & B & E).
  exists b. unfold mountOption. rewrite B. subst b.
  eexists. split; [|reflexivity].
  unfold cumulative_base, base_of. rewrite P. exact F.
Qed.

(** C2, amended.  Outside recreate mode [mountOption] returns the base
    parsed from the most recent document alone. *)
Theorem mount_returns_latest_base docs d st :
  submit hasClass indexRef funcs initial (docs ++ [d]) = Ok st ->
  exists b st',
    base_of funcs d (match docs with [] => true | _ :: _ => false end)
    = Ok b
    /\ mountOption st false = Ok (VObj b, st').
Proof.
  intros H. apply submit_app in H. destruct H as (mid & A & H).
  cbn [submit] in H. apply bind_ok in H. destruct H as [last [S H]].
  inversion H; subst last. clear H.
  destruct (setOption_backup _ _ _ S) as [new N].
  apply setOption_inv in S. destruct S as (p & P & NB & _).
  assert (I : match _optionBackup mid with None => true | Some _ => false end
              = match docs with [] => true | _ :: _ => false end).
  { destruct docs as [|d0 rest].
    - inversion A; subst. reflexivity.
    - cbn [submit] in A. apply bind_ok in A. destruct A as [t [S A]].
      destruct (setOption_backup _ _ _ S) as [o O].
      destruct (submit_keeps_backup _ _ _ _ O A) as [o' O'].
      rewrite O'. reflexivity. }
  rewrite I in P.
  exists (baseOption p). unfold mountOption. rewrite N, NB.
  eexists. split; [|reflexivity].
  unfold base_of. rewrite P. reflexivity.
Qed.

Lemma merge_scalar_source target source :
  is_scalar source = true -> merge target source true = Ok source.
Proof.
  destruct source; try discriminate; destruct target; reflexivity.
Qed.








Lemma get_set_other ps k v k' :
  String.eqb k k' = false -> get (set ps k v) k' = get ps k'.
Proof.
  intros N. unfold get. induction ps as [|[k0 v0] r IH]; cbn [set lookup].
  - rewrite N. reflexivity.
  - destruct (String.eqb k0 k) eqn:E; cbn [lookup].
    + apply String.eqb_eq in E. subst k0. rewrite N. reflexivity.
    + destruct (String.eqb k0 k'); [reflexivity | exact IH].
Qed.








Lemma get_set_same ps k v : get (set ps k v) k = v.
Proof.
  unfold get. induction ps as [|[k0 v0] r IH]; cbn [set lookup].
  - rewrite String.eqb_refl. reflexivity.
  - destruct (String.eqb k0 k) eqn:E; cbn [lookup]; rewrite E;
      [reflexivity | exact IH].
Qed.






Lemma settled_plain ps : settled hasClass ps -> plain ps = true.
Proof. intros H. apply H. Qed.











End WithRegistry.

Lemma later_submission_replaces_witness :
  exists p new,
    parseRawOption one_layer [] false = Ok p
    /\ _optionBackup after_one_layer = Some new
    /\ timelineOptions new = [VObj [("b", num 1)]]
    /\ mediaList new = []
    /\ mediaDefault new = None.
Proof.
  destruct (later_submission_replaces
              no_class no_index after_two_layers
              (mkParsed [("timeline", VUndef)]
                        [VObj [("a", num 1)]; VObj [("a", num 2)]] None [])
              one_layer [] after_one_layer eq_refl eq_refl)
    as (ps & p & new & _ & P & N & _ & T1 & _ & _ & M & _ & D).
  exists p, new. split; [exact P|]. split; [exact N|].
  assert (E : p = mkParsed [("timeline", VUndef)] [VObj [("b", num 1)]] None []).
  { vm_compute in P. inversion P. reflexivity. }
  subst p. split; [|split].
  - rewrite T1; [reflexivity | discriminate].
  - rewrite M; reflexivity.
  - rewrite D; reflexivity.
Defined.


(** C1, as stated, fails: after [{a: 1}] and [{a: 2}] recreate mode
    returns a base with [a = 2], not the base parsed from the first
    document. *)
Lemma recreate_differs_from_first_base :
  exists v b1,
    resolve no_class no_index [] [doc_a1; doc_a2] true = Ok v
    /\ base_of [] doc_a1 true = Ok b1
    /\ v = VObj [("a", num 2); ("timeline", VUndef)]
    /\ v <> VObj b1.
Proof.
  eexists. eexists. split; [reflexivity|]. split; [reflexivity|].
  split; [reflexivity|]. intros E. inversion E.
Qed.

Lemma recreate_returns_cumulative_witness :
  exists b st',
    cumulative_base no_class no_index [] [doc_a1; doc_a2] = Ok b
    /\ mountOption after_a1_a2 true = Ok (VObj b, st').
Proof.
  apply (recreate_returns_cumulative no_class no_index []
                                     [doc_a1; doc_a2] after_a1_a2).
  - discriminate.
  - reflexivity.
Defined.

(** C2, as stated, fails: after [{a: 1}] and [{b: 2}] the option
    returned outside recreate mode has no [a]; the cumulative merge of
    the two bases has both. *)
Lemma mount_differs_from_cumulative :
  exists v c,
    resolve no_class no_index [] [doc_a1; doc_b2] false = Ok v
    /\ cumulative_base no_class no_index [] [doc_a1; doc_b2] = Ok c
    /\ v = VObj [("b", num 2); ("timeline", VUndef)]
    /\ c = [("a", num 1); ("timeline", VUndef); ("b", num 2)]
    /\ v <> VObj c.
Proof.
  eexists. eexists. split; [reflexivity|]. split; [reflexivity|].
  split; [reflexivity|]. split; [reflexivity|]. intros E. inversion E.
Qed.

Lemma mount_returns_latest_base_witness :
  exists b st',
    base_of [] doc_b2 false = Ok b
    /\ mountOption after_a1_b2 false = Ok (VObj b, st').
Proof.
  apply (mount_returns_latest_base no_class no_index [] [doc_a1] doc_b2
                                   after_a1_b2).
  reflexivity.
Defined.



Lemma matching_sorted w h : forall l i ind,
  matching l i w h = Ok ind ->
  StronglySorted Z.lt ind /\ Forall (fun k => (i <= k)%Z) ind.
Proof.
  induction l as [|u l IH]; intros i ind H.
  - inversion H. split; constructor.
  - cbn [matching] in H.
    apply bind_ok in H. destruct H as [qv [_ H]].
    apply bind_ok in H. destruct H as [q [_ H]].
    apply bind_ok in H. destruct H as [rest [R H]].
    destruct (IH _ _ R) as [S F].
    assert (F' : Forall (fun k => (i <= k)%Z) rest).
    { eapply Forall_impl; [|exact F]. cbn. intros. lia. }
    inversion H; subst. destruct (Media.applyMediaQuery q w h).
    + split.
      * constructor; [exact S|]. eapply Forall_impl; [|exact F].
        cbn. intros. lia.
      * constructor; [lia | exact F'].
    + split; assumption.
Qed.

Lemma selection_sorted l d w h ind :
  selection l d w h = Ok ind -> StronglySorted Z.lt ind.
Proof.
  unfold selection. intros H.
  apply bind_ok in H. destruct H as [m [M H]].
  apply matching_sorted in M. destruct M as [S _].
  inversion H; subst. destruct m; [|exact S].
  destruct (defined d); repeat constructor.
Qed.

Lemma selection_no_media w h :
  selection [] None w h = Ok [].
Proof. reflexivity. Qed.

(** What one evaluation returns, by the selection it computes. *)
Lemma selection_outcome this w h indices :
  selection (_mediaList this) (_mediaDefault this) w h = Ok indices ->
  StronglySorted Z.lt indices
  /\ (indices = _currentMediaIndices this ->
      exists this', getMediaOption this w h = Ok ([], this'))
  /\ (indices <> _currentMediaIndices this ->
      exists this',
        getMediaOption this w h
        = Ok (map (fragment (_mediaList this) (_mediaDefault this)) indices,
              this'))
  /\ (forall r this',
         getMediaOption this w h = Ok (r, this') ->
         _mediaList this <> [] \/ defined (_mediaDefault this) = true ->
         _currentMediaIndices this' = indices).
Proof.
  intros S. split; [exact (selection_sorted _ _ _ _ _ S)|].
  unfold getMediaOption.
  destruct (_mediaList this) as [|u l] eqn:L;
    [destruct (defined (_mediaDefault this)) eqn:D|].
  - rewrite S. cbn [bind]. repeat split.
    + intros E. rewrite <- E.
      assert (R : indicesEquals indices indices = true)
        by (apply IndicesFacts.indicesEquals_iff; reflexivity).
      rewrite R. cbn [negb]. destruct indices; eauto.
    + intros N.
      assert (R : indicesEquals indices (_currentMediaIndices this) = false).
      { destruct (indicesEquals indices (_currentMediaIndices this)) eqn:E;
          [|reflexivity].
        apply IndicesFacts.indicesEquals_iff in E. contradiction. }
      rewrite R. cbn [negb]. destruct indices; eauto.
    + intros r this' H _. inversion H. reflexivity.
  - assert (indices = []).
    { unfold selection in S. cbn [matching bind] in S. rewrite D in S.
      inversion S. reflexivity. }
    subst indices. repeat split; eauto.
    intros r this' _ [K|K]; [contradiction | discriminate].
  - rewrite S. cbn [bind]. repeat split.
    + intros E. rewrite <- E.
      assert (R : indicesEquals indices indices = true)
        by (apply IndicesFacts.indicesEquals_iff; reflexivity).
      rewrite R. cbn [negb].
      destruct (defined (_mediaDefault this)); destruct indices; eauto.
    + intros N.
      assert (R : indicesEquals indices (_currentMediaIndices this) = false).
      { destruct (indicesEquals indices (_currentMediaIndices this)) eqn:E;
          [|reflexivity].
        apply IndicesFacts.indicesEquals_iff in E. contradiction. }
      rewrite R. cbn [negb].
      destruct (defined (_mediaDefault this)); destruct indices; eauto.
    + intros r this' H _.
      destruct (defined (_mediaDefault this)); inversion H; reflexivity.
Qed.





(** The scenario of a query [{minWidth: 800}] with a default: at width
    900 the conditional fragment, at 850 nothing, at 700 the default
    fragment. *)
Lemma three_viewports :
  fst_ok (getMediaOption mounted (of_Z 900) (of_Z 600))
  = Some [VObj [("a", num 1)]]
  /\ fst_ok (getMediaOption (viewport mounted 900) (of_Z 850) (of_Z 600))
     = Some []
  /\ fst_ok (getMediaOption (viewport (viewport mounted 900) 850)
                            (of_Z 700) (of_Z 600))
     = Some [VObj [("a", num 0)]].
Proof. repeat split; reflexivity. Qed.



End ManagerFacts.

(* ================================================================== *)
(** * Further properties of the media query evaluator *)

Module MediaMore.

Import Media Session MediaFacts.

Lemma step_and (w h : number) (b : bool) (c : string * number) :
  constraint_step w h b c = b && constraint_holds w h c.
Proof.
  destruct b; [reflexivity|]. rewrite step_false. reflexivity.
Qed.

Lemma fold_and (w h : number) (q : MediaQuery) (b : bool) :
  fold_left (constraint_step w h) q b
  = b && forallb (constraint_holds w h) q.
Proof.
  revert b. induction q as [|c q IH]; intros b; cbn [fold_left forallb].
  - rewrite andb_true_r. reflexivity.
  - rewrite IH, step_and, andb_assoc. reflexivity.
Qed.

Lemma applyMediaQuery_forallb (q : MediaQuery) (w h : number) :
  applyMediaQuery q w h = forallb (constraint_holds w h) q.
Proof. unfold applyMediaQuery. rewrite fold_and. reflexivity. Qed.

(** X1.  A query is the conjunction of its constraints: the query made
    of two lists of constraints matches exactly when both lists match. *)
Theorem query_of_two_parts (q1 q2 : MediaQuery) (w h : number) :
  applyMediaQuery (q1 ++ q2) w h
  = applyMediaQuery q1 w h && applyMediaQuery q2 w h.
Proof. rewrite !applyMediaQuery_forallb. apply forallb_app. Qed.

(** X2.  The order of the constraints in a query does not matter. *)
Theorem query_order_irrelevant (q1 q2 : MediaQuery) (w h : number) :
  Permutation q1 q2 -> applyMediaQuery q1 w h = applyMediaQuery q2 w h.
Proof.
  intros P. rewrite !applyMediaQuery_forallb.
  induction P as [|c a b _ IH|c d a|a b c _ IH1 _ IH2]; cbn [forallb].
  - reflexivity.
  - rewrite IH. reflexivity.
  - rewrite !andb_assoc, (andb_comm (constraint_holds w h d)). reflexivity.
  - rewrite IH1. exact IH2.
Qed.

Lemma query_order_irrelevant_witness :
  applyMediaQuery [("minWidth", of_Z 800); ("maxHeight", of_Z 500)]
                  (of_Z 900) (of_Z 400)
  = applyMediaQuery [("maxHeight", of_Z 500); ("minWidth", of_Z 800)]
                    (of_Z 900) (of_Z 400).
Proof.
  apply (query_order_irrelevant
           [("minWidth", of_Z 800); ("maxHeight", of_Z 500)]
           [("maxHeight", of_Z 500); ("minWidth", of_Z 800)]).
  apply perm_swap.
Defined.

(** A prefixed constraint is the comparison of the realized value of
    its attribute with its target. *)
Lemma constraint_holds_prefixed (w h v : number) (attr op rest : string) :
  QUERY_REG attr = Some (Some op, rest) ->
  constraint_holds w h (attr, v)
  = compare (realMap w h (Str.toLowerCase rest)) v op.
Proof.
  intros E. unfold constraint_holds, constraint_step. rewrite E.
  destruct (QUERY_REG_operator _ _ _ E) as [_ N]. rewrite N.
  destruct (compare _ _ _); reflexivity.
Qed.

Lemma Qle_bool_antisym (x y : Q) :
  Qle_bool x y && Qle_bool y x = Qeq_bool x y.
Proof.
  destruct (Qeq_bool x y) eqn:E.
  - apply Qeq_bool_iff in E.
    assert (A : Qle_bool x y = true) by (apply Qle_bool_iff; rewrite E; apply Qle_refl).
    assert (B : Qle_bool y x = true) by (apply Qle_bool_iff; rewrite E; apply Qle_refl).
    rewrite A, B. reflexivity.
  - destruct (Qle_bool x y) eqn:A; [|reflexivity].
    destruct (Qle_bool y x) eqn:B; [|reflexivity].
    apply Qle_bool_iff in A. apply Qle_bool_iff in B.
    assert (K : Qeq_bool x y = true)
      by (apply Qeq_bool_iff; apply Qle_antisym; assumption).
    congruence.
Qed.

Lemma le_antisym (a b : number) : Num.le a b && Num.le b a = Num.eq a b.
Proof.
  destruct a, b; try reflexivity. apply Qle_bool_antisym.
Qed.

(** X3.  A [min] and a [max] constraint with one target hold together
    exactly when the realized value equals the target, which is what the
    equality branch of [compare] computes: a width or a height is pinned
    by a pair of constraints. *)
Theorem min_and_max_pin_a_value (real : option number) (v w h : number) :
  compare real v "min" && compare real v "max" = compare real v EmptyString
  /\ applyMediaQuery [("minWidth", v); ("maxWidth", v)] w h = Num.eq w v
  /\ applyMediaQuery [("minHeight", v); ("maxHeight", v)] w h = Num.eq h v.
Proof.
  assert (C : forall r, compare (Some r) v "min" && compare (Some r) v "max"
                        = Num.eq r v).
  { intros r. unfold compare. cbn [String.eqb Ascii.eqb Bool.eqb to_number].
    unfold Num.ge. rewrite andb_comm. apply le_antisym. }
  split; [|split].
  - destruct real as [r|]; [exact (C r)|].
    unfold compare. cbn [String.eqb Ascii.eqb Bool.eqb to_number].
    unfold Num.ge. rewrite le_NaN_r. reflexivity.
  - rewrite applyMediaQuery_forallb. cbn [forallb]. rewrite andb_true_r.
    rewrite (constraint_holds_prefixed w h v "minWidth" "min" "Width" eq_refl).
    rewrite (constraint_holds_prefixed w h v "maxWidth" "max" "Width" eq_refl).
    exact (C w).
  - rewrite applyMediaQuery_forallb. cbn [forallb]. rewrite andb_true_r.
    rewrite (constraint_holds_prefixed w h v "minHeight" "min" "Height" eq_refl).
    rewrite (constraint_holds_prefixed w h v "maxHeight" "max" "Height" eq_refl).
    exact (C h).
Qed.

Lemma strip_spec : forall p s r : string,
  Str.strip p s = Some r <-> s = (p ++ r)%string.
Proof.
  induction p as [|a p IH]; intros s r; cbn [Str.strip append].
  - split; [intros H; inversion H; reflexivity | intros ->; reflexivity].
  - destruct s as [|b s].
    + split; discriminate.
    + destruct (Ascii.eqb a b) eqn:E.
      * apply Ascii.eqb_eq in E. subst b. rewrite IH.
        split; [intros ->; reflexivity | intros H; inversion H; reflexivity].
      * split; [discriminate|]. intros H. inversion H; subst.
        rewrite Ascii.eqb_refl in E. discriminate.
Qed.

(** X4.  What the regular expression recognises as a prefixed
    attribute: [min] or [max], followed by at least one character, in a
    name without line terminator; the groups are the prefix and the rest
    of the name. *)
Theorem QUERY_REG_prefix (attr op rest : string) :
  QUERY_REG attr = Some (Some op, rest)
  <-> (op = "min" \/ op = "max")
      /\ attr = (op ++ rest)%string
      /\ Str.is_empty rest = false
      /\ Str.has_line_terminator attr = false.
Proof.
  split.
  - intros H. destruct (QUERY_REG_operator _ _ _ H) as [O N].
    split; [exact O|]. unfold QUERY_REG in H.
    destruct (Str.is_empty attr || Str.has_line_terminator attr) eqn:G;
      [discriminate|].
    apply orb_false_elim in G. destruct G as [_ L].
    destruct (Str.strip "min" attr) as [r1|] eqn:S1.
    + apply strip_spec in S1.
      destruct (Str.is_empty r1); inversion H; subst. auto.
    + destruct (Str.strip "max" attr) as [r2|] eqn:S2; [|discriminate].
      apply strip_spec in S2.
      destruct (Str.is_empty r2); inversion H; subst. auto.
  - intros (O & -> & N & L). unfold QUERY_REG. rewrite L.
    destruct O as [-> | ->]; cbn; rewrite N; reflexivity.
Qed.

Lemma QUERY_REG_prefix_witness :
  QUERY_REG "maxHeight" = Some (Some "max", "Height").
Proof.
  apply (proj2 (QUERY_REG_prefix "maxHeight" "max" "Height")).
  repeat split; auto.
Defined.

(** X5.  After the prefix the attribute name is read without regard to
    case: two names that differ in the case of their letters only give
    the same answer. *)
Theorem attribute_case_irrelevant (op r1 r2 : string) (v w h : number) :
  op = "min" \/ op = "max" ->
  Str.is_empty r1 = false -> Str.is_empty r2 = false ->
  Str.has_line_terminator (op ++ r1) = false ->
  Str.has_line_terminator (op ++ r2) = false ->
  Str.toLowerCase r1 = Str.toLowerCase r2 ->
  applyMediaQuery [((op ++ r1)%string, v)] w h
  = applyMediaQuery [((op ++ r2)%string, v)] w h.
Proof.
  intros O N1 N2 L1 L2 E.
  assert (Q1 : QUERY_REG (op ++ r1) = Some (Some op, r1))
    by (apply QUERY_REG_prefix; auto).
  assert (Q2 : QUERY_REG (op ++ r2) = Some (Some op, r2))
    by (apply QUERY_REG_prefix; auto).
  rewrite !applyMediaQuery_forallb. cbn [forallb].
  rewrite (constraint_holds_prefixed w h v _ _ _ Q1).
  rewrite (constraint_holds_prefixed w h v _ _ _ Q2).
  rewrite E. reflexivity.
Qed.

Lemma attribute_case_irrelevant_witness :
  applyMediaQuery [("minWIDTH", of_Z 800)] (of_Z 900) (of_Z 600)
  = applyMediaQuery [("minwidth", of_Z 800)] (of_Z 900) (of_Z 600).
Proof.
  apply (attribute_case_irrelevant "min" "WIDTH" "width"); auto.
Defined.

Lemma forallb_blocked {A : Type} (f : A -> bool) (l : list A) (a : A) :
  In a l -> f a = false -> forallb f l = false.
Proof.
  intros I F. destruct (forallb f l) eqn:E; [|reflexivity].
  rewrite forallb_forall in E. rewrite (E a I) in F. discriminate.
Qed.

(** X6.  In a viewport of width 0 and height 0 the aspect ratio is not a
    number, and a query with a [min] or [max] constraint on the aspect
    ratio does not match, whatever the target. *)
Theorem aspect_ratio_of_empty_viewport (q : MediaQuery)
        (attr op rest : string) (v : number) :
  In (attr, v) q ->
  QUERY_REG attr = Some (Some op, rest) ->
  Str.toLowerCase rest = "aspectratio" ->
  applyMediaQuery q (Fin 0) (Fin 0) = false.
Proof.
  intros I E R. rewrite applyMediaQuery_forallb.
  apply (forallb_blocked _ _ _ I).
  rewrite (constraint_holds_prefixed _ _ _ _ _ _ E), R.
  destruct (QUERY_REG_operator _ _ _ E) as [[-> | ->] _];
    unfold compare; cbn; unfold Num.ge; rewrite ?le_NaN_r; reflexivity.
Qed.

Lemma aspect_ratio_of_empty_viewport_witness :
  applyMediaQuery [("minWidth", of_Z 0); ("minAspectRatio", of_Z 0)]
                  (Fin 0) (Fin 0) = false.
Proof.
  apply (aspect_ratio_of_empty_viewport
           [("minWidth", of_Z 0); ("minAspectRatio", of_Z 0)]
           "minAspectRatio" "min" "AspectRatio" (of_Z 0)).
  - right. left. reflexivity.
  - reflexivity.
  - reflexivity.
Defined.

End MediaMore.

(* ================================================================== *)
(** * Further properties of the parser *)

Module ParseMore.

Import Media Merge Reconcile Parse Manager Session Samples.
Import ParseFacts ManagerFacts.

(** X7.  When the document has an object as [baseOption], and its
    [options] and [media] are arrays or absent, it parses, and the base is
    made of that object alone: its own properties, with the timeline
    descriptor of the document attached unless it has one itself.  The
    other properties of the document do not reach the base. *)
Theorem given_base_is_the_base (ps bps : props) funcs isNew :
  get ps "baseOption" = VObj bps ->
  array_or_absent (get ps "options") = true ->
  array_or_absent (get ps "media") = true ->
  exists p,
    parseRawOption (VObj ps) funcs isNew = Ok p
    /\ baseOption p
       = preprocess_props funcs isNew
           (if truthy (get bps "timeline") then bps
            else set bps "timeline" (get ps "timeline")).
Proof.
  intros B O M. unfold parseRawOption. cbn [prop bind]. rewrite B.
  cbn [truthy].
  destruct (slice_array_or_absent _ O) as [l L].
  destruct (truthy (get ps "timeline") || truthy (get ps "options")).
  - rewrite L. cbn [bind]. destruct (truthy (get ps "media")) eqn:TM.
    + destruct (each_array_or_absent _ M TM) as [u U]. rewrite U.
      cbn [bind]. destruct (fold_left media_step u ([], None)) as [ml md].
      cbn. eexists. split; reflexivity.
    + cbn. eexists. split; reflexivity.
  - cbn [bind]. destruct (truthy (get ps "media")) eqn:TM.
    + destruct (each_array_or_absent _ M TM) as [u U]. rewrite U.
      cbn [bind]. destruct (fold_left media_step u ([], None)) as [ml md].
      cbn. eexists. split; reflexivity.
    + cbn. eexists. split; reflexivity.
Qed.

Lemma given_base_is_the_base_witness :
  exists p,
    parseRawOption
      (VObj [("title", num 1);
             ("baseOption", VObj [("a", num 2)]);
             ("timeline", VObj [("loop", VBool true)])]) [] true = Ok p
    /\ baseOption p
       = [("a", num 2); ("timeline", VObj [("loop", VBool true)])].
Proof.
  apply (given_base_is_the_base
           [("title", num 1);
            ("baseOption", VObj [("a", num 2)]);
            ("timeline", VObj [("loop", VBool true)])]
           [("a", num 2)] [] true); reflexivity.
Defined.

(** X8.  A document without [baseOption], [timeline], [options] and
    [media] is its own base: all its properties, with an undefined (or
    otherwise empty) timeline descriptor, and no timeline or media
    layers. *)
Theorem plain_document_is_its_base (ps : props) funcs isNew :
  truthy (get ps "baseOption") = false ->
  truthy (get ps "timeline") = false ->
  truthy (get ps "options") = false ->
  truthy (get ps "media") = false ->
  parseRawOption (VObj ps) funcs isNew
  = Ok (mkParsed
          (preprocess_props funcs isNew (set ps "timeline" (get ps "timeline")))
          [] None []).
Proof.
  intros B T O M. unfold parseRawOption. cbn [prop bind].
  rewrite B, T, O, M. cbn. rewrite T. reflexivity.
Qed.

Lemma plain_document_is_its_base_witness :
  parseRawOption (VObj [("a", num 1); ("b", VStr "x")]) [] true
  = Ok (mkParsed [("a", num 1); ("b", VStr "x"); ("timeline", VUndef)]
                 [] None []).
Proof.
  apply (plain_document_is_its_base [("a", num 1); ("b", VStr "x")] [] true);
    reflexivity.
Defined.

Lemma preprocess_truthy funcs isNew (v : value) :
  truthy v = true -> truthy (preprocess funcs isNew v) = true.
Proof. destruct v; auto. Qed.

Lemma preprocess_media_unit funcs isNew (u : value) :
  is_unit u = true -> is_unit (preprocess_media funcs isNew u) = true.
Proof.
  unfold is_unit. intros H.
  apply andb_prop in H. destruct H as [H Q].
  apply andb_prop in H. destruct H as [_ O].
  destruct u as [ | | | | | |ps]; try discriminate.
  cbn [preprocess_media field truthy andb] in *.
  rewrite get_set_same, (preprocess_truthy _ _ _ O).
  rewrite get_set_other; [|reflexivity]. rewrite Q. reflexivity.
Qed.

(** What holds of the media part of every parsed document. *)
Lemma parsed_media_units (doc : value) funcs isNew p :
  parseRawOption doc funcs isNew = Ok p ->
  Forall (fun u => is_unit u = true) (mediaList p)
  /\ (forall d, mediaDefault p = Some d -> is_default_candidate d = true).
Proof.
  intros H. destruct (parse_ok_object _ _ _ _ H) as [ps ->].
  apply parse_inv in H.
  destruct H as (b1 & tl & b2 & ml & md & base & _ & H2 & _ & ->).
  cbn [mediaList mediaDefault].
  destruct (truthy (get ps "media")).
  - apply bind_ok in H2. destruct H2 as [units [_ H2]].
    rewrite media_fold in H2. inversion H2; subst. cbn [app]. split.
    + apply Forall_forall. intros u I. apply in_map_iff in I.
      destruct I as [u0 [<- I]]. apply filter_In in I.
      apply preprocess_media_unit, I.
    + intros d D.
      assert (I : In d (filter is_default_candidate units)).
      { destruct (filter is_default_candidate units); inversion D.
        left. reflexivity. }
      apply filter_In in I. apply I.
  - inversion H2; subst. split; [constructor | discriminate].
Qed.

(** X9.  Whatever the shape of [media], every unit of the parsed media
    list has an [option] and a [query], also after the preprocessors
    rewrote its option, and the parsed default has an [option] and no
    [query]. *)
Theorem parsed_media_are_units (doc : value) funcs isNew p :
  parseRawOption doc funcs isNew = Ok p ->
  Forall (fun u => is_unit u = true) (mediaList p)
  /\ (forall d, mediaDefault p = Some d -> is_default_candidate d = true).
Proof. apply parsed_media_units. Qed.

Lemma parsed_media_are_units_witness :
  Forall (fun u => is_unit u = true)
         [VObj [("query", VObj [("maxWidth", num 500)]);
                ("option", VObj [("a", num 2)])]].
Proof.
  apply (proj1 (parsed_media_are_units
                  (VObj sample_media) [] true
                  (mkParsed [("timeline", VUndef)] []
                     (Some (VObj [("option", VObj [("a", num 1)])]))
                     [VObj [("query", VObj [("maxWidth", num 500)]);
                            ("option", VObj [("a", num 2)])]])
                  eq_refl)).
Defined.

(** X26.  The preprocessors never see the default unit: the default of
    a parsed document is the entry of [media] itself, the same with any
    preprocessors as with none. *)
Theorem default_unit_is_not_preprocessed (doc : value) funcs isNew p p0 :
  parseRawOption doc funcs isNew = Ok p ->
  parseRawOption doc [] isNew = Ok p0 ->
  mediaDefault p = mediaDefault p0.
Proof.
  intros H H0. destruct (parse_ok_object _ _ _ _ H) as [ps ->].
  apply parse_inv in H. apply parse_inv in H0.
  destruct H as (b1 & tl & b2 & ml & md & base & H1 & H2 & _ & ->).
  destruct H0 as (b1' & tl' & b2' & ml' & md' & base' & H1' & H2' & _ & ->).
  rewrite H1 in H1'. inversion H1'; subst b1' tl'.
  rewrite H2 in H2'. inversion H2'; subst. reflexivity.
Qed.

Lemma default_unit_is_not_preprocessed_witness :
  mediaDefault
    (mkParsed [("timeline", VUndef); ("seen", VBool true)] []
       (Some (VObj [("option", VObj [("a", num 1)])]))
       [VObj [("query", VObj [("maxWidth", num 500)]);
              ("option", VObj [("a", num 2); ("seen", VBool true)])]])
  = Some (VObj [("option", VObj [("a", num 1)])]).
Proof.
  apply (default_unit_is_not_preprocessed
           (VObj sample_media) [mark_seen] true
           (mkParsed [("timeline", VUndef); ("seen", VBool true)] []
              (Some (VObj [("option", VObj [("a", num 1)])]))
              [VObj [("query", VObj [("maxWidth", num 500)]);
                     ("option", VObj [("a", num 2); ("seen", VBool true)])]])
           (mkParsed [("timeline", VUndef)] []
              (Some (VObj [("option", VObj [("a", num 1)])]))
              [VObj [("query", VObj [("maxWidth", num 500)]);
                     ("option", VObj [("a", num 2)])]]));
    reflexivity.
Defined.

End ParseMore.

(* ================================================================== *)
(** * Further properties of the manager *)

Module ManagerMore.

Import Media Merge Reconcile Parse Manager Session Samples.
Import ParseFacts IndicesFacts ManagerFacts ParseMore.

(** X10.  [indicesEquals] compares two joined strings, and yet it holds
    exactly of equal lists of indices: no two different lists of numbers
    join to the same string. *)
Theorem indicesEquals_is_equality (indices1 indices2 : list Z) :
  indicesEquals indices1 indices2 = true <-> indices1 = indices2.
Proof. apply indicesEquals_iff. Qed.

Lemma indicesEquals_is_equality_witness :
  indicesEquals [1%Z; 12%Z] [1%Z; 12%Z] = true
  /\ [(-1)%Z] = [(-1)%Z].
Proof.
  split.
  - apply (proj2 (indicesEquals_is_equality [1%Z; 12%Z] [1%Z; 12%Z])).
    reflexivity.
  - apply (proj1 (indicesEquals_is_equality [(-1)%Z] [(-1)%Z])).
    reflexivity.
Defined.

(** X11.  An evaluation repeated in the same viewport returns nothing
    and leaves the manager as it is. *)
Theorem repeated_evaluation_is_silent this w h r this' :
  getMediaOption this w h = Ok (r, this') ->
  getMediaOption this' w h = Ok ([], this').
Proof.
  assert (R : forall ind, indicesEquals ind ind = true)
    by (intros ind; apply indicesEquals_iff; reflexivity).
  unfold getMediaOption at 1.
  destruct (_mediaList this) as [|u l] eqn:L;
    [destruct (defined (_mediaDefault this)) eqn:D|]; intros H.
  - apply bind_ok in H. destruct H as [ind [S H]]. inversion H; subst.
    unfold getMediaOption.
    cbn [_mediaList _mediaDefault _currentMediaIndices _timelineOptions
         _optionBackup _newBaseOption].
    rewrite D, S. cbn [bind]. rewrite R. destruct ind; reflexivity.
  - inversion H; subst. unfold getMediaOption. rewrite L, D. reflexivity.
  - apply bind_ok in H. destruct H as [ind [S H]].
    assert (E : this' = mkManager (_timelineOptions this) (u :: l)
                                  (_mediaDefault this) ind
                                  (_optionBackup this) (_newBaseOption this)).
    { destruct (defined (_mediaDefault this)); inversion H; reflexivity. }
    subst this'. unfold getMediaOption.
    cbn [_mediaList _mediaDefault _currentMediaIndices _timelineOptions
         _optionBackup _newBaseOption].
    rewrite S. cbn [bind]. rewrite R.
    destruct (defined (_mediaDefault this)); destruct ind; reflexivity.
Qed.

Lemma repeated_evaluation_is_silent_witness :
  getMediaOption (viewport mounted 900) (of_Z 900) (of_Z 600)
  = Ok ([], viewport mounted 900).
Proof.
  apply (repeated_evaluation_is_silent mounted (of_Z 900) (of_Z 600)
                                       [VObj [("a", num 1)]]).
  reflexivity.
Defined.

(** X12.  The first evaluation after [mountOption] is never suppressed:
    it returns the fragments of the whole selection, because mounting
    empties the recorded selection. *)
Theorem first_evaluation_after_mount this isRecreate v this' w h indices :
  mountOption this isRecreate = Ok (v, this') ->
  selection (_mediaList this') (_mediaDefault this') w h = Ok indices ->
  exists this'',
    getMediaOption this' w h
    = Ok (map (fragment (_mediaList this') (_mediaDefault this')) indices,
          this'').
Proof.
  intros M S.
  assert (C : _currentMediaIndices this' = []).
  { unfold mountOption in M. destruct (_optionBackup this); [|discriminate].
    inversion M. reflexivity. }
  destruct (selection_outcome this' w h indices S) as (_ & Same & Changed & _).
  rewrite C in Same, Changed.
  destruct indices as [|i r].
  - apply Same. reflexivity.
  - apply Changed. discriminate.
Qed.

Lemma first_evaluation_after_mount_witness :
  exists this'',
    getMediaOption mounted (of_Z 700) (of_Z 600)
    = Ok ([VObj [("a", num 0)]], this'').
Proof.
  apply (first_evaluation_after_mount
           (or_initial (setOption no_class no_index initial responsive []))
           false (VObj [("timeline", VUndef)]) mounted
           (of_Z 700) (of_Z 600) [(-1)%Z]); reflexivity.
Defined.

Lemma matching_bounds w h : forall l i ind,
  matching l i w h = Ok ind ->
  Forall (fun k => (i <= k < i + Z.of_nat (List.length l))%Z) ind.
Proof.
  induction l as [|u l IH]; intros i ind H.
  - inversion H. constructor.
  - cbn [matching] in H.
    apply bind_ok in H. destruct H as [qv [_ H]].
    apply bind_ok in H. destruct H as [q [_ H]].
    apply bind_ok in H. destruct H as [rest [R H]].
    pose proof (IH _ _ R) as F.
    assert (F' : Forall (fun k => (i <= k < i + Z.of_nat (List.length (u :: l)))%Z)
                        rest).
    { eapply Forall_impl; [|exact F]. cbn beta. intros k K.
      cbn [List.length]. lia. }
    inversion H; subst. destruct (applyMediaQuery q w h); [|exact F'].
    constructor; [cbn [List.length]; lia | exact F'].
Qed.

(** X13.  A selection is either the default alone, [[-1]], which needs
    a default, or a list of positions of the media list: the default is
    never mixed with matching units, and no selected index is out of
    range. *)
Theorem selection_in_range l d w h indices :
  selection l d w h = Ok indices ->
  (indices = [(-1)%Z] /\ defined d = true)
  \/ Forall (fun k => (0 <= k < Z.of_nat (List.length l))%Z) indices.
Proof.
  unfold selection. intros H.
  apply bind_ok in H. destruct H as [m [M H]].
  apply matching_bounds in M. inversion H; subst.
  destruct m as [|i r]; [|right; exact M].
  destruct (defined d); [left; auto | right; constructor].
Qed.

Lemma selection_in_range_witness :
  ([0%Z] = [(-1)%Z] /\ defined (Some default_unit) = true)
  \/ Forall (fun k => (0 <= k < 1)%Z) [0%Z].
Proof.
  apply (selection_in_range [wide_unit] (Some default_unit)
                            (of_Z 900) (of_Z 600) [0%Z]).
  reflexivity.
Defined.

Lemma setOption_frame hasClass indexRef this doc funcs this' :
  setOption hasClass indexRef this doc funcs = Ok this' ->
  _timelineOptions this' = _timelineOptions this
  /\ _mediaList this' = _mediaList this
  /\ _mediaDefault this' = _mediaDefault this
  /\ _currentMediaIndices this' = _currentMediaIndices this.
Proof.
  unfold setOption. intros H.
  apply bind_ok in H. destruct H as [p [_ H]].
  destruct (_optionBackup this).
  - apply bind_ok in H. destruct H as [m [_ H]]. inversion H. auto.
  - inversion H. auto.
Qed.

(** X14.  [setOption] alone changes nothing of what the two selectors
    return: the layers they read are the copies made by the last
    [mountOption], so a new submission is seen only after the next
    mount. *)
Theorem submission_is_unseen_until_mount
        hasClass indexRef this doc funcs this' w h timelineModel :
  setOption hasClass indexRef this doc funcs = Ok this' ->
  fst_ok (getMediaOption this' w h) = fst_ok (getMediaOption this w h)
  /\ getTimelineOption this' timelineModel = getTimelineOption this timelineModel.
Proof.
  intros H. apply setOption_frame in H. destruct H as (T & L & D & C).
  unfold getMediaOption, getTimelineOption. rewrite T, L, D, C. split.
  - destruct (_mediaList this); [destruct (defined (_mediaDefault this))|];
      try reflexivity;
      destruct (selection _ _ w h); reflexivity.
  - reflexivity.
Qed.

Lemma submission_is_unseen_until_mount_witness :
  fst_ok (getMediaOption
            (or_initial (setOption no_class no_index mounted doc_a1 []))
            (of_Z 900) (of_Z 600))
  = Some [VObj [("a", num 1)]].
Proof.
  rewrite (proj1 (submission_is_unseen_until_mount
                    no_class no_index mounted doc_a1 []
                    (or_initial (setOption no_class no_index mounted doc_a1 []))
                    (of_Z 900) (of_Z 600) None eq_refl)).
  reflexivity.
Defined.

Lemma element_at_whole (l : list value) (i : Z) :
  (0 <= i)%Z -> element_at l (of_Z i) = nth (Z.to_nat i) l VUndef.
Proof.
  intros P. unfold element_at, of_Z. rewrite Qfloor_Z.
  assert (E : Qeq_bool (inject_Z i) (inject_Z i) = true)
    by (apply Qeq_bool_iff; reflexivity).
  rewrite E. apply Z.leb_le in P. rewrite P. reflexivity.
Qed.

Lemma element_at_negative (l : list value) (i : Z) :
  (i < 0)%Z -> element_at l (of_Z i) = VUndef.
Proof.
  intros P. unfold element_at, of_Z. rewrite Qfloor_Z.
  apply Z.leb_gt in P. rewrite P. rewrite andb_false_r. reflexivity.
Qed.

Lemma mount_layers this isRecreate v this' :
  mountOption this isRecreate = Ok (v, this') ->
  exists bk,
    _optionBackup this = Some bk
    /\ _timelineOptions this' = timelineOptions bk
    /\ _mediaList this' = mediaList bk
    /\ _mediaDefault this' = mediaDefault bk
    /\ _currentMediaIndices this' = [].
Proof.
  unfold mountOption. destruct (_optionBackup this) as [bk|]; [|discriminate].
  intros H. inversion H; subst. exists bk. cbn. unfold clone.
  rewrite !map_id. destruct (mediaDefault bk); auto.
Qed.

(** X15.  After [mountOption], [getTimelineOption] gives the retained
    timeline layer at the current index of the timeline model; at an index
    past the last layer, at a negative index, and without a timeline
    model it gives [undefined]. *)
Theorem timeline_layer_by_index this isRecreate v this' bk :
  mountOption this isRecreate = Ok (v, this') ->
  _optionBackup this = Some bk ->
  (forall i, (0 <= i)%Z ->
             getTimelineOption this' (Some (of_Z i))
             = nth (Z.to_nat i) (timelineOptions bk) VUndef)
  /\ (forall i, (Z.of_nat (List.length (timelineOptions bk)) <= i)%Z ->
                getTimelineOption this' (Some (of_Z i)) = VUndef)
  /\ (forall i, (i < 0)%Z -> getTimelineOption this' (Some (of_Z i)) = VUndef)
  /\ getTimelineOption this' None = VUndef.
Proof.
  intros M B. apply mount_layers in M.
  destruct M as (bk' & B' & T & _). rewrite B in B'. inversion B'; subst bk'.
  unfold getTimelineOption, clone. rewrite T.
  assert (A : forall i, (0 <= i)%Z ->
                match timelineOptions bk with
                | [] => VUndef
                | _ :: _ => element_at (timelineOptions bk) (of_Z i)
                end = nth (Z.to_nat i) (timelineOptions bk) VUndef).
  { intros i P. destruct (timelineOptions bk) as [|x r] eqn:E.
    - destruct (Z.to_nat i); reflexivity.
    - apply element_at_whole, P. }
  repeat split.
  - exact A.
  - intros i P. rewrite A by lia. apply nth_overflow. lia.
  - intros i P. destruct (timelineOptions bk); [reflexivity|].
    apply element_at_negative, P.
  - destruct (timelineOptions bk); reflexivity.
Qed.

Lemma timeline_layer_by_index_witness :
  getTimelineOption (snd_ok (mountOption after_two_layers false))
                    (Some (of_Z 1))
  = VObj [("a", num 2)].
Proof.
  apply (proj1 (timeline_layer_by_index
                  after_two_layers false (VObj [("timeline", VUndef)])
                  (snd_ok (mountOption after_two_layers false))
                  (mkParsed [("timeline", VUndef)]
                            [VObj [("a", num 1)]; VObj [("a", num 2)]]
                            None [])
                  eq_refl eq_refl) 1%Z).
  lia.
Defined.

Lemma mounted_layer this isRecreate v this' bk (i : Z) :
  mountOption this isRecreate = Ok (v, this') ->
  _optionBackup this = Some bk ->
  (0 <= i)%Z ->
  getTimelineOption this' (Some (of_Z i))
  = nth (Z.to_nat i) (timelineOptions bk) VUndef.
Proof.
  intros M B P. apply mount_layers in M.
  destruct M as (bk' & B' & T & _). rewrite B in B'. inversion B'; subst bk'.
  unfold getTimelineOption, clone. rewrite T.
  destruct (timelineOptions bk) as [|x r] eqn:E.
  - destruct (Z.to_nat i); reflexivity.
  - apply element_at_whole, P.
Qed.

(** X16.  The layers of the [options] array of a first submission come
    back by position: after the mount, [getTimelineOption] at index [i]
    gives the [i]-th entry of the array as the preprocessors left it. *)
Theorem submitted_layers_come_back
        hasClass indexRef (ps : props) (l : list value) funcs
        st isRecreate v st' (i : Z) :
  get ps "options" = VArr l ->
  setOption hasClass indexRef initial (VObj ps) funcs = Ok st ->
  mountOption st isRecreate = Ok (v, st') ->
  (0 <= i)%Z ->
  getTimelineOption st' (Some (of_Z i))
  = preprocess funcs true (nth (Z.to_nat i) l VUndef).
Proof.
  intros O S M P. apply setOption_inv in S.
  cbn [initial _optionBackup] in S. destruct S as (p & Pp & _ & B).
  rewrite (mounted_layer _ _ _ _ _ i M B P).
  rewrite (parse_timeline _ _ _ _ Pp), O.
  change VUndef with (preprocess funcs true VUndef) at 1.
  apply map_nth.
Qed.

Lemma submitted_layers_come_back_witness :
  getTimelineOption (snd_ok (mountOption after_two_layers true))
                    (Some (of_Z 0))
  = VObj [("a", num 1)].
Proof.
  apply (submitted_layers_come_back
           no_class no_index
           [("options", VArr [VObj [("a", num 1)]; VObj [("a", num 2)]])]
           [VObj [("a", num 1)]; VObj [("a", num 2)]] []
           after_two_layers true (VObj [("timeline", VUndef)])
           (snd_ok (mountOption after_two_layers true)) 0%Z);
    reflexivity.
Defined.

(** X17.  [mountOption] throws on a manager that has accepted no
    submission, and returns an option once one was accepted, in either
    mode. *)
Theorem mount_needs_a_submission
        hasClass indexRef funcs docs st isRecreate :
  submit hasClass indexRef funcs initial docs = Ok st ->
  (docs = [] -> mountOption st isRecreate = Err TypeError)
  /\ (docs <> [] -> exists v st', mountOption st isRecreate = Ok (v, st')).
Proof.
  intros H. split.
  - intros ->. inversion H. reflexivity.
  - intros N. destruct docs as [|d rest]; [contradiction|].
    cbn [submit] in H. apply bind_ok in H. destruct H as [t [S H]].
    destruct (setOption_backup _ _ _ _ _ _ S) as [o O].
    destruct (submit_keeps_backup _ _ _ _ _ _ _ O H) as [bk B].
    unfold mountOption. rewrite B. eauto.
Qed.

Lemma mount_needs_a_submission_witness :
  mountOption initial true = Err TypeError
  /\ exists v st', mountOption after_a1_a2 false = Ok (v, st').
Proof.
  split.
  - apply (proj1 (mount_needs_a_submission no_class no_index [] []
                                           initial true eq_refl)).
    reflexivity.
  - apply (proj2 (mount_needs_a_submission no_class no_index []
                                           [doc_a1; doc_a2]
                                           after_a1_a2 false eq_refl)).
    discriminate.
Defined.

(** X18.  After the first submission the two modes of [mountOption]
    agree: the backup base and the new base are one and the same. *)
Theorem first_mount_modes_agree hasClass indexRef doc funcs st :
  setOption hasClass indexRef initial doc funcs = Ok st ->
  mountOption st true = mountOption st false.
Proof.
  intros S. apply setOption_inv in S.
  cbn [initial _optionBackup] in S. destruct S as (p & _ & N & B).
  unfold mountOption. rewrite B, N. reflexivity.
Qed.

Lemma first_mount_modes_agree_witness :
  mountOption after_two_layers true = mountOption after_two_layers false.
Proof.
  apply (first_mount_modes_agree no_class no_index two_layers []).
  reflexivity.
Defined.

(** X19.  A later submission can replace the retained timeline layers,
    media list and default, but never clears them: what was non-empty
    (or present) before is non-empty (or present) afterwards. *)
Theorem layers_are_never_cleared
        hasClass indexRef this old doc funcs this' :
  _optionBackup this = Some old ->
  setOption hasClass indexRef this doc funcs = Ok this' ->
  exists new,
    _optionBackup this' = Some new
    /\ (timelineOptions old <> [] -> timelineOptions new <> [])
    /\ (mediaList old <> [] -> mediaList new <> [])
    /\ (defined (mediaDefault old) = true ->
        defined (mediaDefault new) = true).
Proof.
  intros B S. apply setOption_inv in S. rewrite B in S.
  destruct S as (p & _ & _ & merged & _ & N).
  eexists. split; [exact N|].
  cbn [timelineOptions mediaList mediaDefault]. repeat split.
  - intros K. destruct (timelineOptions p); [exact K | discriminate].
  - intros K. destruct (mediaList p); [exact K | discriminate].
  - intros K. destruct (defined (mediaDefault p)) eqn:D; [exact D | exact K].
Qed.

Lemma layers_are_never_cleared_witness :
  exists new,
    _optionBackup
      (or_initial (setOption no_class no_index after_two_layers doc_a1 []))
    = Some new
    /\ timelineOptions new <> [].
Proof.
  destruct (layers_are_never_cleared
              no_class no_index after_two_layers
              (mkParsed [("timeline", VUndef)]
                        [VObj [("a", num 1)]; VObj [("a", num 2)]] None [])
              doc_a1 []
              (or_initial (setOption no_class no_index after_two_layers
                                     doc_a1 []))
              eq_refl eq_refl) as (new & N & T & _).
  exists new. split; [exact N|]. apply T. discriminate.
Defined.

(** X20.  Whatever was submitted, every unit of the retained media list
    has an [option] and a [query], and a retained default has an [option]
    and no [query]: the selectors never meet an entry the parser would
    have dropped. *)
Theorem retained_media_are_units hasClass indexRef funcs docs st bk :
  submit hasClass indexRef funcs initial docs = Ok st ->
  _optionBackup st = Some bk ->
  Forall (fun u => is_unit u = true) (mediaList bk)
  /\ (forall d, mediaDefault bk = Some d -> is_default_candidate d = true).
Proof.
  assert (G : forall ds this st0,
             (forall b, _optionBackup this = Some b ->
                        Forall (fun u => is_unit u = true) (mediaList b)
                        /\ (forall d, mediaDefault b = Some d ->
                                      is_default_candidate d = true)) ->
             submit hasClass indexRef funcs this ds = Ok st0 ->
             forall b, _optionBackup st0 = Some b ->
                       Forall (fun u => is_unit u = true) (mediaList b)
                       /\ (forall d, mediaDefault b = Some d ->
                                     is_default_candidate d = true)).
  { induction ds as [|d ds IH]; intros this st0 I H.
    - inversion H; subst. exact I.
    - cbn [submit] in H. apply bind_ok in H. destruct H as [t [S H]].
      apply (IH t st0); [|exact H].
      apply setOption_inv in S. destruct S as (p & P & _ & N).
      destruct (parsed_media_units _ _ _ _ P) as [PL PD].
      destruct (_optionBackup this) as [old|] eqn:B.
      + destruct N as (merged & _ & N). destruct (I old eq_refl) as [OL OD].
        intros b Hb. rewrite N in Hb. inversion Hb; subst b.
        cbn [mediaList mediaDefault]. split.
        * destruct (mediaList p); [exact OL | exact PL].
        * destruct (defined (mediaDefault p)); [exact PD | exact OD].
      + intros b Hb. rewrite N in Hb. inversion Hb; subst b. split; assumption. }
  intros H B. apply (G docs initial st); [|exact H|exact B].
  intros b Hb. discriminate.
Qed.

Lemma retained_media_are_units_witness :
  Forall (fun u => is_unit u = true) [wide_unit]
  /\ (forall d, Some default_unit = Some d -> is_default_candidate d = true).
Proof.
  apply (retained_media_are_units
           no_class no_index [] [responsive; doc_a1]
           (or_initial (submit no_class no_index [] initial
                               [responsive; doc_a1]))
           (mkParsed [("timeline", VUndef); ("a", num 1)] []
                     (Some default_unit) [wide_unit])
           eq_refl eq_refl).
Defined.

End ManagerMore.

(* ================================================================== *)
(** * Further properties of [mergeOption] *)

Module MergeMore.

Import Media Merge Reconcile Parse Manager Session Samples.
Import ParseFacts ManagerFacts.

Section WithRegistry.

Variable hasClass : string -> bool.
Variable indexRef : value -> option nat.

Lemma set_keeps_key (ps : props) (k' : string) (v : value) (k : string) :
  In k (map fst ps) -> In k (map fst (set ps k' v)).
Proof.
  induction ps as [|[k0 v0] r IH]; cbn [set map fst In]; [tauto|].
  destruct (String.eqb k0 k'); cbn [map fst In]; tauto.
Qed.

Lemma merge_component_keeps_key oldOption entry o k :
  merge_component hasClass indexRef oldOption entry = Ok o ->
  In k (map fst oldOption) -> In k (map fst o).
Proof.
  destruct entry as [k' v]. unfold merge_component.
  destruct (is_nullish v).
  - intros H. inversion H. auto.
  - destruct (negb (hasClass k')); intros H I;
      apply bind_ok in H; destruct H as [x [_ H]]; inversion H;
      apply set_keeps_key, I.
Qed.

Lemma merge_components_keep_key new_entries k : forall oldOption o,
  merge_components hasClass indexRef oldOption new_entries = Ok o ->
  In k (map fst oldOption) -> In k (map fst o).
Proof.
  induction new_entries as [|e r IH]; intros oldOption o H I.
  - inversion H; subst. exact I.
  - cbn [merge_components] in H. apply bind_ok in H. destruct H as [m [M H]].
    apply (IH _ _ H). exact (merge_component_keeps_key _ _ _ _ M I).
Qed.

Lemma mergeOption_components oldOption newOption o :
  mergeOption hasClass indexRef oldOption newOption = Ok o ->
  merge_components hasClass indexRef oldOption newOption = Ok o.
Proof.
  unfold mergeOption. destruct (array_like newOption); [discriminate | auto].
Qed.

(** X21.  [mergeOption] never removes a property of the old option:
    every property name of the old option is a property name of the
    result. *)
Theorem merge_keeps_the_old_keys oldOption newOption o k :
  mergeOption hasClass indexRef oldOption newOption = Ok o ->
  In k (map fst oldOption) -> In k (map fst o).
Proof.
  intros H I. apply mergeOption_components in H.
  exact (merge_components_keep_key _ _ _ _ H I).
Qed.

Lemma merge_component_other oldOption k' v o k :
  merge_component hasClass indexRef oldOption (k', v) = Ok o ->
  String.eqb k' k = false ->
  get o k = get oldOption k.
Proof.
  unfold merge_component. intros H N.
  destruct (is_nullish v); [inversion H; reflexivity|].
  destruct (negb (hasClass k'));
    apply bind_ok in H; destruct H as [x [_ H]]; inversion H;
    apply get_set_other, N.
Qed.

Lemma merge_components_other entries k : forall oldOption o,
  merge_components hasClass indexRef oldOption entries = Ok o ->
  ~ In k (map fst entries) ->
  get o k = get oldOption k.
Proof.
  induction entries as [|[k' v] r IH]; intros oldOption o H N.
  - inversion H. reflexivity.
  - cbn [merge_components] in H. apply bind_ok in H. destruct H as [m [M H]].
    cbn [map fst In] in N.
    assert (E : String.eqb k' k = false).
    { apply String.eqb_neq. intros ->. apply N. left. reflexivity. }
    rewrite (IH _ _ H) by (intros I; apply N; right; exact I).
    exact (merge_component_other _ _ _ _ _ M E).
Qed.

(** X22.  A property the new option does not name keeps its value. *)
Theorem merge_leaves_other_keys oldOption newOption o k :
  mergeOption hasClass indexRef oldOption newOption = Ok o ->
  ~ In k (map fst newOption) ->
  get o k = get oldOption k.
Proof.
  intros H N. apply mergeOption_components in H.
  exact (merge_components_other _ _ _ _ H N).
Qed.

Lemma merge_component_class oldOption k v o :
  merge_component hasClass indexRef oldOption (k, v) = Ok o ->
  hasClass k = true -> is_nullish v = false ->
  exists items, get o k = VArr items.
Proof.
  unfold merge_component. intros H C N. rewrite N, C in H. cbn [negb] in H.
  apply bind_ok in H. destruct H as [items [_ H]]. inversion H.
  rewrite get_set_same. eauto.
Qed.

Lemma merge_component_keeps_array oldOption entry o k :
  merge_component hasClass indexRef oldOption entry = Ok o ->
  hasClass k = true ->
  (exists items, get oldOption k = VArr items) ->
  exists items, get o k = VArr items.
Proof.
  destruct entry as [k' v]. intros H C A.
  destruct (String.eqb k' k) eqn:E.
  - apply String.eqb_eq in E. subst k'.
    destruct (is_nullish v) eqn:N.
    + unfold merge_component in H. rewrite N in H. inversion H; subst. exact A.
    + exact (merge_component_class _ _ _ _ H C N).
  - rewrite (merge_component_other _ _ _ _ _ H E). exact A.
Qed.

Lemma merge_components_keep_array entries k : forall oldOption o,
  merge_components hasClass indexRef oldOption entries = Ok o ->
  hasClass k = true ->
  (exists items, get oldOption k = VArr items) ->
  exists items, get o k = VArr items.
Proof.
  induction entries as [|e r IH]; intros oldOption o H C A.
  - inversion H; subst. exact A.
  - cbn [merge_components] in H. apply bind_ok in H. destruct H as [m [M H]].
    apply (IH _ _ H C). exact (merge_component_keeps_array _ _ _ _ M C A).
Qed.

(** X23.  A component main type that the new option sets (to anything
    but [null] or [undefined]) holds an array after the merge, also when
    both the old and the new value were single objects. *)
Theorem merged_component_is_an_array oldOption newOption o k v :
  mergeOption hasClass indexRef oldOption newOption = Ok o ->
  hasClass k = true ->
  In (k, v) newOption ->
  is_nullish v = false ->
  exists items, get o k = VArr items.
Proof.
  intros H C I N. apply mergeOption_components in H.
  revert oldOption o H. induction newOption as [|e r IH]; intros oldOption o H.
  - destruct I.
  - cbn [merge_components] in H. apply bind_ok in H. destruct H as [m [M H]].
    destruct I as [-> | I].
    + apply (merge_components_keep_array _ _ _ _ H C).
      exact (merge_component_class _ _ _ _ M C N).
    + exact (IH I _ _ H).
Qed.

(** X24.  For a property that is not a component main type, a scalar of
    the new option replaces the old value, whatever it was. *)
Theorem scalar_replaces_old_value oldOption newOption o k v :
  mergeOption hasClass indexRef oldOption newOption = Ok o ->
  NoDup (map fst newOption) ->
  In (k, v) newOption ->
  hasClass k = false ->
  is_scalar v = true ->
  is_nullish v = false ->
  get o k = v.
Proof.
  intros H D I C S N. apply mergeOption_components in H.
  revert oldOption o H D. induction newOption as [|e r IH]; intros oldOption o H D.
  - destruct I.
  - cbn [merge_components] in H. apply bind_ok in H. destruct H as [m [M H]].
    inversion D as [|? ? Nk Dr]; subst.
    destruct I as [-> | I].
    + cbn [fst] in Nk. rewrite (merge_components_other _ _ _ _ H Nk).
      unfold merge_component in M. rewrite N, C in M. cbn [negb] in M.
      rewrite (merge_scalar_source _ _ S) in M. cbn [bind] in M.
      inversion M. apply get_set_same.
    + exact (IH I _ _ H Dr).
Qed.

Lemma lookup_filter_absent (P : string * value -> bool) (k : string) :
  forall ps, ~ In k (map fst ps) -> lookup (filter P ps) k = None.
Proof.
  induction ps as [|[k0 v0] r IH]; intros N; cbn [filter]; [reflexivity|].
  cbn [map fst In] in N.
  assert (E : String.eqb k0 k = false).
  { apply String.eqb_neq. intros ->. apply N. left. reflexivity. }
  destruct (P (k0, v0)); cbn [lookup]; rewrite ?E; apply IH;
    intros I; apply N; right; exact I.
Qed.

Lemma array_like_set_entries : forall ps,
  NoDup (map fst ps) -> array_like (set_entries ps) = array_like ps.
Proof.
  unfold array_like, get, set_entries.
  induction ps as [|[k0 v0] r IH]; intros D; [reflexivity|].
  inversion D as [|? ? Nk Dr]; subst. cbn [filter snd lookup].
  destruct (String.eqb k0 "length") eqn:E.
  - apply String.eqb_eq in E. subst k0.
    destruct (is_nullish v0) eqn:N; cbn [negb lookup].
    + rewrite (lookup_filter_absent _ _ _ Nk).
      destruct v0; try discriminate; reflexivity.
    + rewrite String.eqb_refl. reflexivity.
  - destruct (is_nullish v0); cbn [negb lookup]; rewrite ?E; exact (IH Dr).
Qed.

Lemma merge_components_set_entries : forall new_entries oldOption,
  merge_components hasClass indexRef oldOption (set_entries new_entries)
  = merge_components hasClass indexRef oldOption new_entries.
Proof.
  unfold set_entries.
  induction new_entries as [|[k v] r IH]; intros oldOption; [reflexivity|].
  cbn [filter snd merge_components].
  destruct (is_nullish v) eqn:N; cbn [negb].
  - unfold merge_component at 1. rewrite N. cbn [bind]. apply IH.
  - cbn [merge_components].
    destruct (merge_component hasClass indexRef oldOption (k, v));
      cbn [bind]; [apply IH | reflexivity].
Qed.

(** X25.  A property of the new option that holds [null] or
    [undefined] is skipped: merging the new option is merging it without
    those properties, so such a property deletes nothing. *)
Theorem nullish_entries_are_skipped oldOption newOption :
  NoDup (map fst newOption) ->
  mergeOption hasClass indexRef oldOption newOption
  = mergeOption hasClass indexRef oldOption (set_entries newOption).
Proof.
  intros D. unfold mergeOption.
  rewrite (array_like_set_entries _ D), merge_components_set_entries.
  reflexivity.
Qed.

End WithRegistry.

Lemma merge_keeps_the_old_keys_witness :
  In "a" (map fst [("a", num 1); ("timeline", VUndef); ("b", num 2)]).
Proof.
  apply (merge_keeps_the_old_keys
           no_class no_index
           [("a", num 1); ("timeline", VUndef)]
           [("b", num 2); ("timeline", VUndef)]
           [("a", num 1); ("timeline", VUndef); ("b", num 2)] "a").
  - reflexivity.
  - left. reflexivity.
Defined.

Lemma merge_leaves_other_keys_witness :
  get [("a", num 1); ("timeline", VUndef); ("b", num 2)] "a" = num 1.
Proof.
  apply (merge_leaves_other_keys
           no_class no_index
           [("a", num 1); ("timeline", VUndef)]
           [("b", num 2); ("timeline", VUndef)]
           [("a", num 1); ("timeline", VUndef); ("b", num 2)] "a").
  - reflexivity.
  - cbn. intros [H | [H | []]]; discriminate.
Defined.

Lemma merged_component_is_an_array_witness :
  exists items, get [("series", VArr [entry "x" 1])] "series" = VArr items.
Proof.
  apply (merged_component_is_an_array
           series_class no_index [] [("series", entry "x" 1)]
           [("series", VArr [entry "x" 1])] "series" (entry "x" 1)).
  - reflexivity.
  - reflexivity.
  - left. reflexivity.
  - reflexivity.
Defined.

Lemma scalar_replaces_old_value_witness :
  get [("a", num 2); ("timeline", VUndef)] "a" = num 2.
Proof.
  apply (scalar_replaces_old_value
           no_class no_index
           [("a", num 1); ("timeline", VUndef)]
           [("a", num 2); ("timeline", VUndef)]
           [("a", num 2); ("timeline", VUndef)] "a" (num 2)).
  - reflexivity.
  - repeat constructor; cbn; intuition discriminate.
  - left. reflexivity.
  - reflexivity.
  - reflexivity.
  - reflexivity.
Defined.

Lemma nullish_entries_are_skipped_witness :
  mergeOption no_class no_index
              [("a", num 1)] [("a", VNull); ("b", num 2)]
  = mergeOption no_class no_index [("a", num 1)] [("b", num 2)].
Proof.
  apply (nullish_entries_are_skipped
           no_class no_index [("a", num 1)] [("a", VNull); ("b", num 2)]).
  repeat constructor; cbn; intuition discriminate.
Defined.

End MergeMore.
